(** * NodeModal: path-addressed read / write / merge of a JSON document

    Shallow embedding of [src/features/modals/NodeModal/index.tsx]:
    [normalizeNodeData], [getAtPath], [setAtPath] and [handleSave].

    Modelling conventions.
    - A JavaScript value reachable from [JSON.parse] output, or built from
      it by the assignments of this file, is a tree: no object is shared
      between two parents.  In-place mutation of the tree is therefore
      modelled by a functional update that writes the mutated child back
      into its parent.
    - Objects and arrays are modelled by their own data properties.  An
      assignment under the name [__proto__] goes to the inherited setter
      when the name is not an own property, and is modelled so.  What a
      read finds on the built-in prototypes, and the [length] of arrays
      and strings, have no counterpart among the modelled values:
      statements that depend on them say so through [plain_path] and
      [assignable_path].
    - Numbers are opaque payloads for every operation of this file; the
      integers stand for them.  Where the text of a number matters (a
      number segment used as a property key, a number turned into text),
      statements keep to the safe integers, whose text is the decimal
      one.
    - The object [normalizeNodeData] builds is followed with the one
      piece of its prototype chain that assignments depend on: whether
      the setter of [__proto__] is still inherited.
    - The file is an ES module, hence strict code: assigning a property on
      a primitive raises a [TypeError]. *)

From Stdlib Require Import List String Ascii ZArith NArith Lia Bool Permutation.
From Stdlib Require Import DecimalString DecimalN DecimalZ.
Import ListNotations.
Open Scope string_scope.

(** ** Values *)

Set Warnings "-register-all".

Inductive JsVal : Type :=
| JUndef
| JNull
| JBool (b : bool)
| JNum (z : Z)
| JStr (s : string)
| JArr (elems : list JsVal) (extra : list (string * JsVal))
| JObj (props : list (string * JsVal)).

(** [JArr elems extra]: the indexed elements (a hole reads as [JUndef]) and
    the non-index own properties an assignment such as [arr["k"] = v]
    creates.  [JObj props]: own properties in creation order. *)

Inductive JsError : Type := TypeError | SyntaxError.

Inductive completion (A : Type) : Type :=
| Normal (a : A)
| Throw (e : JsError).
Arguments Normal {A} a.
Arguments Throw {A} e.

Definition bind {A B} (c : completion A) (k : A -> completion B) : completion B :=
  match c with
  | Normal a => k a
  | Throw e => Throw e
  end.

Notation "x <- c ;; k" := (bind c (fun x => k))
  (at level 61, c at next level, right associativity).

(** ** Path segments and property keys *)

Inductive Seg : Type :=
| SKey (s : string)
| SIdx (n : N).

Definition Path := list Seg.

Definition N_to_string (n : N) : string :=
  NilZero.string_of_uint (N.to_uint n).

(** ToPropertyKey: a number is used through its text, which for the
    integers below 10^21, the array indices among them, is the decimal
    one. *)
Definition prop_key (seg : Seg) : string :=
  match seg with
  | SKey s => s
  | SIdx n => N_to_string n
  end.

(** A property name is an array index when it is the canonical decimal
    text of an integer below 2^32 - 1. *)
Definition array_index (k : string) : option N :=
  match NilZero.uint_of_string k with
  | Some u =>
      let n := N.of_uint u in
      if (N_to_string n =? k) && (n <? 4294967295)%N then Some n else None
  | None => None
  end.

Definition is_number_seg (seg : Seg) : bool :=
  match seg with
  | SIdx _ => true
  | SKey _ => false
  end.

(** ** Own-property tables *)

Fixpoint lookup (k : string) (ps : list (string * JsVal)) : option JsVal :=
  match ps with
  | [] => None
  | (k', v) :: ps' => if k' =? k then Some v else lookup k ps'
  end.

(** [obj[k] = v] on a table: an existing property keeps its position, a
    new one is appended. *)
Fixpoint assign (k : string) (v : JsVal) (ps : list (string * JsVal))
  : list (string * JsVal) :=
  match ps with
  | [] => [(k, v)]
  | (k', v') :: ps' =>
      if k' =? k then (k', v) :: ps' else (k', v') :: assign k v ps'
  end.

Definition has_own (k : string) (ps : list (string * JsVal)) : bool :=
  match lookup k ps with
  | Some _ => true
  | None => false
  end.

(** [obj[k] = v] on the own properties of an object or array whose
    prototype is the built-in one, as [JSON.parse] and the literals make
    them: the name [__proto__], when it is not an own property, reaches
    the setter inherited from [Object.prototype] and creates no
    property. *)
Definition put (k : string) (v : JsVal) (ps : list (string * JsVal))
  : list (string * JsVal) :=
  if (k =? "__proto__") && negb (has_own k ps) then ps else assign k v ps.

(** [arr[i] = v]: writing past the end grows the array, leaving holes. *)
Fixpoint store_elem (i : nat) (v : JsVal) (l : list JsVal) : list JsVal :=
  match i, l with
  | O, [] => [v]
  | O, _ :: l' => v :: l'
  | S i', [] => JUndef :: store_elem i' v []
  | S i', x :: l' => x :: store_elem i' v l'
  end.

Definition char_at (i : nat) (s : string) : JsVal :=
  match String.get i s with
  | Some c => JStr (String c EmptyString)
  | None => JUndef
  end.

(** ** Property access *)

Definition is_nullish (v : JsVal) : bool :=
  match v with
  | JUndef | JNull => true
  | _ => false
  end.

(** [typeof v === "object"] *)
Definition typeof_object (v : JsVal) : bool :=
  match v with
  | JNull | JArr _ _ | JObj _ => true
  | _ => false
  end.

Definition is_array (v : JsVal) : bool :=
  match v with
  | JArr _ _ => true
  | _ => false
  end.

Definition or_undef (o : option JsVal) : JsVal :=
  match o with
  | Some v => v
  | None => JUndef
  end.

(** [ref[k]], for a name [k] that is not built in: the own data property,
    [undefined] where there is none, a [TypeError] on [null] and
    [undefined].  Under a built-in name ([length], [__proto__], the
    members of the prototypes, listed in [builtin_names] below) the code
    reads a number, a function or a prototype object; the modelled values
    have none of these, and the statements about reads carry
    [plain_path]. *)
Definition get_prop (ref : JsVal) (k : string) : completion JsVal :=
  match ref with
  | JUndef | JNull => Throw TypeError
  | JBool _ | JNum _ => Normal JUndef
  | JStr s =>
      match array_index k with
      | Some i => Normal (char_at (N.to_nat i) s)
      | None => Normal JUndef
      end
  | JArr elems extra =>
      match array_index k with
      | Some i => Normal (nth (N.to_nat i) elems JUndef)
      | None => Normal (or_undef (lookup k extra))
      end
  | JObj props => Normal (or_undef (lookup k props))
  end.

(** [ref[k] = v]; the result is [ref] after the assignment.  On a
    primitive the assignment throws in strict code, except under
    [__proto__], where the inherited setter returns without effect.  On
    an array or an object, [put] leaves [__proto__] unbound unless it is
    an own property.  An assignment to the [length] of an array resizes
    the array or throws a [RangeError]; it is not modelled, and the
    statements about writes carry [assignable_path]. *)
Definition set_prop (ref : JsVal) (k : string) (v : JsVal) : completion JsVal :=
  match ref with
  | JArr elems extra =>
      match array_index k with
      | Some i => Normal (JArr (store_elem (N.to_nat i) v elems) extra)
      | None => Normal (JArr elems (put k v extra))
      end
  | JObj props => Normal (JObj (put k v props))
  | JUndef | JNull => Throw TypeError
  | JBool _ | JNum _ | JStr _ =>
      if k =? "__proto__" then Normal ref else Throw TypeError
  end.

(** ** getAtPath *)

Fixpoint getAtPath (root : JsVal) (path : Path) : completion JsVal :=
  match path with
  | [] => Normal root
  | key :: rest =>
      if is_nullish root then Normal JUndef
      else ref <- get_prop root (prop_key key) ;; getAtPath ref rest
  end.

(** ** setAtPath *)

Definition fresh_container (nextIsIndex : bool) : JsVal :=
  if nextIsIndex then JArr [] [] else JObj [].

(** The loop of [setAtPath] from the reference [ref], with [key] the
    segment at hand and [rest] the segments after it.  The result is [ref]
    after the mutations made through it. *)
Fixpoint set_from (ref : JsVal) (key : Seg) (rest : Path) (value : JsVal)
  : completion JsVal :=
  match rest with
  | [] => set_prop ref (prop_key key) value
  | next :: rest' =>
      let k := prop_key key in
      cur <- get_prop ref k ;;
      ref1 <- (if is_nullish cur || negb (typeof_object cur)
               then set_prop ref k (fresh_container (is_number_seg next))
               else Normal ref) ;;
      child <- get_prop ref1 k ;;
      child' <- set_from child next rest' value ;;
      set_prop ref1 k child'
  end.

(** [setAtPath root path value]: the object [root] as the call leaves it,
    and the value the call returns.  With an empty path nothing is mutated
    and [value] is returned; otherwise the mutated [root] is returned. *)
Definition setAtPath (root : JsVal) (path : Path) (value : JsVal)
  : completion (JsVal * JsVal) :=
  match path with
  | [] => Normal (root, value)
  | key :: rest =>
      root' <- set_from root key rest value ;; Normal (root', root')
  end.


(** ** JSON.stringify(value, null, 2) *)

Definition Z_to_string (z : Z) : string :=
  NilZero.string_of_int (Z.to_int z).

Definition hex_digit (n : N) : ascii :=
  if (n <? 10)%N then ascii_of_N (48 + n) else ascii_of_N (87 + n).

(** The escape of one code unit inside a JSON string literal. *)
Definition escape_char (c : ascii) : string :=
  let n := N_of_ascii c in
  if (n =? 8)%N then "\b"
  else if (n =? 9)%N then "\t"
  else if (n =? 10)%N then "\n"
  else if (n =? 12)%N then "\f"
  else if (n =? 13)%N then "\r"
  else if (n =? 34)%N then "\" ++ String (ascii_of_N 34) ""
  else if (n =? 92)%N then "\\"
  else if (n <? 32)%N then
    "\u00" ++ String (hex_digit (n / 16)) (String (hex_digit (n mod 16)) "")
  else String c "".

Fixpoint escape (s : string) : string :=
  match s with
  | EmptyString => ""
  | String c s' => escape_char c ++ escape s'
  end.

Definition dquote : string := String (ascii_of_N 34) "".
Definition newline : string := String (ascii_of_N 10) "".

(** QuoteJSONString *)
Definition quote (s : string) : string := dquote ++ escape s ++ dquote.

Fixpoint join (sep : string) (l : list string) : string :=
  match l with
  | [] => ""
  | [x] => x
  | x :: l' => x ++ sep ++ join sep l'
  end.

(** EnumerableOwnProperties order: array-index names in ascending numeric
    order, then the other names in creation order. *)
Fixpoint insert_by_index {A} (i : N) (e : string * A)
  (l : list (N * (string * A))) : list (N * (string * A)) :=
  match l with
  | [] => [(i, e)]
  | (j, e') :: l' =>
      if (i <? j)%N then (i, e) :: l else (j, e') :: insert_by_index i e l'
  end.

Fixpoint index_named {A} (l : list (string * A)) : list (N * (string * A)) :=
  match l with
  | [] => []
  | (k, a) :: l' =>
      match array_index k with
      | Some i => insert_by_index i (k, a) (index_named l')
      | None => index_named l'
      end
  end.

Definition is_index_name (k : string) : bool :=
  match array_index k with
  | Some _ => true
  | None => false
  end.

Definition enum_order {A} (l : list (string * A)) : list (string * A) :=
  map snd (index_named l)
  ++ filter (fun e => negb (is_index_name (fst e))) l.

Definition is_undef (v : JsVal) : bool :=
  match v with
  | JUndef => true
  | _ => false
  end.

Definition bracket (opening closing stepback indent : string)
  (partial : list string) : string :=
  match partial with
  | [] => opening ++ closing
  | _ =>
      opening ++ newline ++ indent
      ++ join ("," ++ newline ++ indent) partial
      ++ newline ++ stepback ++ closing
  end.

Definition member (e : string * string) : string :=
  quote (fst e) ++ ": " ++ snd e.

(** SerializeJSONProperty with gap two spaces, for a value that is not
    [undefined]; [stepback] is the current indentation.  An [undefined]
    array element is written [null], an [undefined] property is left out. *)
Fixpoint serialize (stepback : string) (v : JsVal) : string :=
  let indent := stepback ++ "  " in
  match v with
  | JUndef => "null"
  | JNull => "null"
  | JBool b => if b then "true" else "false"
  | JNum z => Z_to_string z
  | JStr s => quote s
  | JArr elems _ =>
      bracket "[" "]" stepback indent
        ((fix items (l : list JsVal) : list string :=
            match l with
            | [] => []
            | x :: l' => serialize indent x :: items l'
            end) elems)
  | JObj props =>
      bracket "{" "}" stepback indent
        (map member (enum_order
           ((fix members (l : list (string * JsVal)) : list (string * string) :=
               match l with
               | [] => []
               | (k, x) :: l' =>
                   if is_undef x then members l'
                   else (k, serialize indent x) :: members l'
               end) props)))
  end.

(** [JSON.stringify(v, null, 2)].  The built-in answers [undefined] for an
    [undefined] argument; no call of this file passes one. *)
Definition JSON_stringify (v : JsVal) : string := serialize "" v.


(** ** JSON.parse

    A recursive-descent reader of the JSON grammar.  Number literals with
    a fraction or an exponent, and [\u] escapes above code unit 255, have
    no counterpart among the modelled values and are answered with a
    [SyntaxError].  [fuel] bounds the recursion; [JSON_parse] supplies
    enough of it for every text ([JSON_parse_fuel_enough]). *)

Definition is_ws (c : ascii) : bool :=
  let n := N_of_ascii c in
  ((n =? 32) || (n =? 9) || (n =? 10) || (n =? 13))%N.

Fixpoint skip_ws (s : string) : string :=
  match s with
  | EmptyString => ""
  | String c s' => if is_ws c then skip_ws s' else s
  end.

Fixpoint strip_prefix (p s : string) : option string :=
  match p, s with
  | EmptyString, _ => Some s
  | String a p', String b s' => if Ascii.eqb a b then strip_prefix p' s' else None
  | String _ _, EmptyString => None
  end.

Definition is_digit (c : ascii) : bool :=
  let n := N_of_ascii c in ((48 <=? n) && (n <=? 57))%N.

Fixpoint take_digits (s : string) : string * string :=
  match s with
  | EmptyString => ("", "")
  | String c s' =>
      if is_digit c
      then let (d, r) := take_digits s' in (String c d, r)
      else ("", s)
  end.

Definition starts_with (f : ascii -> bool) (s : string) : bool :=
  match s with
  | EmptyString => false
  | String c _ => f c
  end.

Definition is_frac_or_exp (c : ascii) : bool :=
  let n := N_of_ascii c in ((n =? 46) || (n =? 101) || (n =? 69))%N.

(** The digits of a number literal: one or more, no leading zero. *)
Definition parse_nat (s : string) : option (N * string) :=
  let (d, r) := take_digits s in
  match NilZero.uint_of_string d with
  | Some u =>
      let n := N.of_uint u in
      if (N_to_string n =? d) && negb (starts_with is_frac_or_exp r)
      then Some (n, r) else None
  | None => None
  end.

Definition parse_number (s : string) : option (JsVal * string) :=
  match s with
  | String c s' =>
      if (N_of_ascii c =? 45)%N
      then match parse_nat s' with
           | Some (n, r) => Some (JNum (- Z.of_N n), r)
           | None => None
           end
      else match parse_nat s with
           | Some (n, r) => Some (JNum (Z.of_N n), r)
           | None => None
           end
  | EmptyString => None
  end.

Definition hex_value (c : ascii) : option N :=
  let n := N_of_ascii c in
  if ((48 <=? n) && (n <=? 57))%N then Some (n - 48)%N
  else if ((97 <=? n) && (n <=? 102))%N then Some (n - 87)%N
  else if ((65 <=? n) && (n <=? 70))%N then Some (n - 55)%N
  else None.

Definition unicode_escape (h1 h2 h3 h4 : ascii) : option ascii :=
  match hex_value h1, hex_value h2, hex_value h3, hex_value h4 with
  | Some a, Some b, Some c, Some d =>
      if ((a =? 0) && (b =? 0))%N then Some (ascii_of_N (16 * c + d)) else None
  | _, _, _, _ => None
  end.

Definition simple_escape (e : ascii) : option ascii :=
  let n := N_of_ascii e in
  if (n =? 34)%N then Some (ascii_of_N 34)
  else if (n =? 92)%N then Some (ascii_of_N 92)
  else if (n =? 47)%N then Some (ascii_of_N 47)
  else if (n =? 98)%N then Some (ascii_of_N 8)
  else if (n =? 102)%N then Some (ascii_of_N 12)
  else if (n =? 110)%N then Some (ascii_of_N 10)
  else if (n =? 114)%N then Some (ascii_of_N 13)
  else if (n =? 116)%N then Some (ascii_of_N 9)
  else None.

Definition cons_char (c : ascii) (r : option (string * string))
  : option (string * string) :=
  match r with
  | Some (t, rest) => Some (String c t, rest)
  | None => None
  end.

(** The characters of a string literal, after its opening quote. *)
Fixpoint parse_chars (s : string) : option (string * string) :=
  match s with
  | EmptyString => None
  | String c s' =>
      let n := N_of_ascii c in
      if (n =? 34)%N then Some ("", s')
      else if (n =? 92)%N then
        match s' with
        | String e s'' =>
            if (N_of_ascii e =? 117)%N then
              match s'' with
              | String h1 (String h2 (String h3 (String h4 r))) =>
                  match unicode_escape h1 h2 h3 h4 with
                  | Some u => cons_char u (parse_chars r)
                  | None => None
                  end
              | _ => None
              end
            else
              match simple_escape e with
              | Some u => cons_char u (parse_chars s'')
              | None => None
              end
        | EmptyString => None
        end
      else if (n <? 32)%N then None
      else cons_char c (parse_chars s')
  end.

(** CreateDataProperty in source order: a repeated name keeps its first
    position and takes its last value. *)
Definition build_object (ms : list (string * JsVal)) : list (string * JsVal) :=
  fold_left (fun acc e => assign (fst e) (snd e) acc) ms [].

(** The text after optional white space and the character [c]. *)
Definition after_char (c : ascii) (s : string) : option string :=
  match skip_ws s with
  | String c' r => if Ascii.eqb c c' then Some r else None
  | EmptyString => None
  end.

Fixpoint parse_value (fuel : nat) (s : string) : option (JsVal * string) :=
  match fuel with
  | O => None
  | S f =>
      match skip_ws s with
      | EmptyString => None
      | String c s' =>
          let n := N_of_ascii c in
          if (n =? 123)%N then
            match after_char "}" s' with
            | Some r => Some (JObj [], r)
            | None =>
                match parse_members f s' with
                | Some (ms, r) => Some (JObj (build_object ms), r)
                | None => None
                end
            end
          else if (n =? 91)%N then
            match after_char "]" s' with
            | Some r => Some (JArr [] [], r)
            | None =>
                match parse_elems f s' with
                | Some (vs, r) => Some (JArr vs [], r)
                | None => None
                end
            end
          else if (n =? 34)%N then
            match parse_chars s' with
            | Some (t, r) => Some (JStr t, r)
            | None => None
            end
          else if (n =? 116)%N then
            match strip_prefix "rue" s' with
            | Some r => Some (JBool true, r)
            | None => None
            end
          else if (n =? 102)%N then
            match strip_prefix "alse" s' with
            | Some r => Some (JBool false, r)
            | None => None
            end
          else if (n =? 110)%N then
            match strip_prefix "ull" s' with
            | Some r => Some (JNull, r)
            | None => None
            end
          else parse_number (String c s')
      end
  end
with parse_elems (fuel : nat) (s : string) : option (list JsVal * string) :=
  match fuel with
  | O => None
  | S f =>
      match parse_value f s with
      | Some (v, r) =>
          match skip_ws r with
          | String c r' =>
              if (N_of_ascii c =? 44)%N then
                match parse_elems f r' with
                | Some (vs, r'') => Some (v :: vs, r'')
                | None => None
                end
              else if (N_of_ascii c =? 93)%N then Some ([v], r')
              else None
          | EmptyString => None
          end
      | None => None
      end
  end
with parse_members (fuel : nat) (s : string)
  : option (list (string * JsVal) * string) :=
  match fuel with
  | O => None
  | S f =>
      match skip_ws s with
      | String q s1 =>
          if (N_of_ascii q =? 34)%N then
            match parse_chars s1 with
            | Some (k, s2) =>
                match skip_ws s2 with
                | String col s3 =>
                    if (N_of_ascii col =? 58)%N then
                      match parse_value f s3 with
                      | Some (v, s4) =>
                          match skip_ws s4 with
                          | String c s5 =>
                              if (N_of_ascii c =? 44)%N then
                                match parse_members f s5 with
                                | Some (ms, r) => Some ((k, v) :: ms, r)
                                | None => None
                                end
                              else if (N_of_ascii c =? 125)%N
                              then Some ([(k, v)], s5)
                              else None
                          | EmptyString => None
                          end
                      | None => None
                      end
                    else None
                | EmptyString => None
                end
            | None => None
            end
          else None
      | EmptyString => None
      end
  end.

Definition JSON_parse (text : string) : completion JsVal :=
  match parse_value (2 * length text + 2) text with
  | Some (v, r) =>
      match skip_ws r with
      | EmptyString => Normal v
      | String _ _ => Throw SyntaxError
      end
  | None => Throw SyntaxError
  end.


(** ** normalizeNodeData *)

Record NodeRow : Type := {
  key : option string;
  value : JsVal;
  type : string
}.

Record NodeData : Type := {
  text : list NodeRow;
  path : option Path
}.

(** Template-literal conversion of a value to text.  An object, or an
    array, with an own property [toString] has no callable conversion and
    the literal throws; an array is otherwise joined with commas, its
    nullish elements left empty. *)
Fixpoint to_text (v : JsVal) : completion string :=
  match v with
  | JUndef => Normal "undefined"
  | JNull => Normal "null"
  | JBool b => Normal (if b then "true" else "false")
  | JNum z => Normal (Z_to_string z)
  | JStr s => Normal s
  | JArr elems extra =>
      if has_own "toString" extra then Throw TypeError
      else if has_own "join" extra then Normal "[object Array]"
      else
        match
          (fix items (l : list JsVal) : completion (list string) :=
             match l with
             | [] => Normal []
             | x :: l' =>
                 match (if is_nullish x then Normal "" else to_text x) with
                 | Normal t =>
                     match items l' with
                     | Normal ts => Normal (t :: ts)
                     | Throw e => Throw e
                     end
                 | Throw e => Throw e
                 end
             end) elems
        with
        | Normal texts => Normal (join "," texts)
        | Throw e => Throw e
        end
  | JObj props =>
      if has_own "toString" props then Throw TypeError
      else Normal "[object Object]"
  end.

(** Truthiness of [row.key]: [null], [undefined] and the empty string are
    falsy. *)
Definition truthy_key (k : option string) : option string :=
  match k with
  | Some EmptyString => None
  | Some s => Some s
  | None => None
  end.

Definition is_container_type (t : string) : bool :=
  (t =? "array") || (t =? "object").

(** The object [obj] under construction: whether an assignment under
    [__proto__] still reaches the setter of [Object.prototype], and the
    own properties.  The setter replaces the prototype of [obj] by the
    value assigned when that is [null], an array or an object, and
    ignores every other value.  It is out of reach once the prototype is
    [null], or is an object that has [__proto__] as a data property of
    its own (as [JSON.parse] makes them): from then on the assignment
    creates the property. *)
Definition Building : Type := (bool * list (string * JsVal))%type.

Definition new_object : Building := (true, []).

(** Whether the setter is still in reach from an object whose prototype
    has just been set to [v]. *)
Definition setter_in_reach (v : JsVal) : bool :=
  match v with
  | JNull => false
  | JObj props => negb (has_own "__proto__" props)
  | JArr _ extra => negb (has_own "__proto__" extra)
  | _ => true
  end.

(** [obj[k] = v] *)
Definition assign_on (k : string) (v : JsVal) (obj : Building) : Building :=
  if (k =? "__proto__") && negb (has_own k (snd obj)) && fst obj
  then (setter_in_reach v, snd obj)
  else (fst obj, assign k v (snd obj)).

(** The body of the [forEach] callback. *)
Definition add_row (obj : Building) (row : NodeRow) : Building :=
  if negb (is_container_type (type row)) then
    match truthy_key (key row) with
    | Some k => assign_on k (value row) obj
    | None => obj
    end
  else obj.

(** [obj] after the loop over the rows: its own properties. *)
Definition rows_object (rows : list NodeRow) : list (string * JsVal) :=
  snd (fold_left add_row rows new_object).

Definition normalizeNodeData (nodeRows : option (list NodeRow))
  : completion string :=
  match nodeRows with
  | None => Normal "{}"
  | Some [] => Normal "{}"
  | Some (row0 :: others) =>
      match others, truthy_key (key row0) with
      | [], None => to_text (value row0)
      | _, _ =>
          Normal (JSON_stringify (JObj (rows_object (row0 :: others))))
      end
  end.

(** ** handleSave *)

Record Session : Type := {
  isEditing : bool;
  draft : string;
  draftError : option string
}.

(** Modelled from the spec: the external document store behind [getJson]
    and [setContents], whose code is not part of this file.  It holds the
    committed text and a pending-changes flag; [getJson] reads the text,
    [setContents] replaces both. *)
Record Store : Type := {
  contents : string;
  hasChanges : bool
}.

Definition getJson (store : Store) : string := contents store.

Definition setContents (c : string) (h : bool) (store : Store) : Store :=
  {| contents := c; hasChanges := h |}.

Definition setIsEditing (b : bool) (st : Session) : Session :=
  {| isEditing := b; draft := draft st; draftError := draftError st |}.

(** The memoised validity of the draft. *)
Definition isDraftValid (d : string) : bool :=
  match JSON_parse d with
  | Normal _ => true
  | Throw _ => false
  end.

Definition is_null (v : JsVal) : bool :=
  match v with
  | JNull => true
  | _ => false
  end.

(** [v !== null && typeof v === "object" && !Array.isArray(v)] *)
Definition plain_object (v : JsVal) : bool :=
  negb (is_null v) && typeof_object v && negb (is_array v).

(** [Object.entries] of a non-array object. *)
Definition Object_entries (v : JsVal) : list (string * JsVal) :=
  match v with
  | JObj props => enum_order props
  | _ => []
  end.

(** [entries.forEach(([k, v]) => { ref[k] = v })] *)
Fixpoint assign_entries (entries : list (string * JsVal)) (ref : JsVal)
  : completion JsVal :=
  match entries with
  | [] => Normal ref
  | (k, v) :: entries' =>
      ref' <- set_prop ref k v ;; assign_entries entries' ref'
  end.

(** [root] after the mutation [f] of the object that the walk of
    [getAtPath] reaches along [path]. *)
Fixpoint mutate_at (root : JsVal) (p : Path)
  (f : JsVal -> completion JsVal) : completion JsVal :=
  match p with
  | [] => f root
  | seg :: rest =>
      child <- get_prop root (prop_key seg) ;;
      child' <- mutate_at child rest f ;;
      set_prop root (prop_key seg) child'
  end.

(** The [try] block: the text handed to [setContents]. *)
Definition save_try (p : Path) (d : string) (store : Store)
  : completion string :=
  let rootJsonStr := getJson store in
  root <- JSON_parse rootJsonStr ;;
  parsedDraft <- JSON_parse d ;;
  currentAtPath <- getAtPath root p ;;
  root' <- (if plain_object parsedDraft && plain_object currentAtPath
            then mutate_at root p (assign_entries (Object_entries parsedDraft))
            else r <- setAtPath root p parsedDraft ;; Normal (fst r)) ;;
  Normal (JSON_stringify root').

Definition node_path (nodeData : option NodeData) : Path :=
  match nodeData with
  | Some nd => match path nd with Some p => p | None => [] end
  | None => []
  end.

Definition handleSave (nodeData : option NodeData) (st : Session)
  (store : Store) : Session * Store :=
  if negb (isEditing st) || negb (isDraftValid (draft st)) then (st, store)
  else
    match save_try (node_path nodeData) (draft st) store with
    | Normal updatedStr =>
        (setIsEditing false st, setContents updatedStr true store)
    | Throw _ => (st, store)
    end.

(** The merge or the replacement of lines 98 to 113: [root] after it. *)
Definition merge_or_replace (root : JsVal) (p : Path)
  (parsedDraft currentAtPath : JsVal) : completion JsVal :=
  if plain_object parsedDraft && plain_object currentAtPath
  then mutate_at root p (assign_entries (Object_entries parsedDraft))
  else r <- setAtPath root p parsedDraft ;; Normal (fst r).

(** [handleSave] with its two collaborators as parameters.  [getJson] and
    [setContents] are functions of other stores of the application, whose
    code is not part of this file; either call may throw inside the [try]
    block.  [fetch] reads the store.  [commit] answers the store as the
    call leaves it and, when the call threw, the exception. *)
Definition save_try_with
  (fetch : Store -> completion string)
  (p : Path) (d : string) (store : Store) : completion string :=
  rootJsonStr <- fetch store ;;
  root <- JSON_parse rootJsonStr ;;
  parsedDraft <- JSON_parse d ;;
  currentAtPath <- getAtPath root p ;;
  root' <- merge_or_replace root p parsedDraft currentAtPath ;;
  Normal (JSON_stringify root').

Definition handleSave_with
  (fetch : Store -> completion string)
  (commit : string -> bool -> Store -> Store * option JsError)
  (nodeData : option NodeData) (st : Session) (store : Store)
  : Session * Store :=
  if negb (isEditing st) || negb (isDraftValid (draft st)) then (st, store)
  else
    match save_try_with fetch (node_path nodeData) (draft st) store with
    | Normal updatedStr =>
        match commit updatedStr true store with
        | (store', None) => (setIsEditing false st, store')
        | (store', Some _) => (st, store')
        end
    | Throw _ => (st, store)
    end.



(** ** jsonPathToString *)

Definition seg_text (seg : Seg) : string :=
  match seg with
  | SIdx n => N_to_string n
  | SKey s => dquote ++ s ++ dquote
  end.

Definition jsonPathToString (p : option Path) : string :=
  match p with
  | None => "$"
  | Some [] => "$"
  | Some segments => "$[" ++ join "][" (map seg_text segments) ++ "]"
  end.

(** ** The other handlers of the session *)

(** [nodeData?.text ?? []] *)
Definition node_text (nodeData : option NodeData) : list NodeRow :=
  match nodeData with
  | Some nd => text nd
  | None => []
  end.

Definition handleCancel (nodeData : option NodeData) (st : Session)
  : completion Session :=
  d <- normalizeNodeData (Some (node_text nodeData)) ;;
  Normal {| isEditing := false; draft := d; draftError := None |}.

(** The effect that runs when the modal opens or the selected node's rows
    change. *)
Definition resetOnOpen (opened : bool) (nodeData : option NodeData)
  (st : Session) : completion Session :=
  if opened then
    d <- normalizeNodeData (Some (node_text nodeData)) ;;
    Normal {| isEditing := false; draft := d; draftError := None |}
  else Normal st.

(** The Edit button. *)
Definition beginEdit (st : Session) : Session := setIsEditing true st.

(** The text area's [onChange]. *)
Definition updateDraft (v : string) (st : Session) : Session :=
  {| isEditing := isEditing st; draft := v; draftError := draftError st |}.

(** The [disabled] property of the Save button. *)
Definition saveDisabled (st : Session) : bool :=
  negb (isEditing st) || negb (isDraftValid (draft st)).

(** [path ?? []] *)
Definition some_path (p : option Path) : Path :=
  match p with
  | Some q => q
  | None => []
  end.

Fixpoint quote_free (s : string) : bool :=
  match s with
  | EmptyString => true
  | String c s' => negb (N_of_ascii c =? 34)%N && quote_free s'
  end.

Definition seg_quote_free (seg : Seg) : bool :=
  match seg with
  | SKey s => quote_free s
  | SIdx _ => true
  end.

(** The bracketed segments one after the other. *)
Fixpoint render (p : Path) : string :=
  match p with
  | [] => ""
  | seg :: rest => "[" ++ seg_text seg ++ "]" ++ render rest
  end.

(** ** Names with a built-in meaning

    The string-keyed members of [Object.prototype], [Array.prototype],
    [String.prototype], [Number.prototype] and [Boolean.prototype]
    (ECMAScript 2024 with its Annex B), and [length].  A read under one of
    these names, where it is not an own property, finds a built-in
    function or object. *)
Definition builtin_names : list string :=
  [ "__proto__"; "length"; "constructor";
    "__defineGetter__"; "__defineSetter__"; "__lookupGetter__";
    "__lookupSetter__"; "hasOwnProperty"; "isPrototypeOf";
    "propertyIsEnumerable"; "toLocaleString"; "toString"; "valueOf";
    "at"; "concat"; "copyWithin"; "entries"; "every"; "fill"; "filter";
    "find"; "findIndex"; "findLast"; "findLastIndex"; "flat"; "flatMap";
    "forEach"; "includes"; "indexOf"; "join"; "keys"; "lastIndexOf"; "map";
    "pop"; "push"; "reduce"; "reduceRight"; "reverse"; "shift"; "slice";
    "some"; "sort"; "splice"; "toReversed"; "toSorted"; "toSpliced";
    "unshift"; "values"; "with";
    "anchor"; "big"; "blink"; "bold"; "charAt"; "charCodeAt"; "codePointAt";
    "endsWith"; "fixed"; "fontcolor"; "fontsize"; "isWellFormed"; "italics";
    "link"; "localeCompare"; "match"; "matchAll"; "normalize"; "padEnd";
    "padStart"; "repeat"; "replace"; "replaceAll"; "search"; "small";
    "split"; "startsWith"; "strike"; "sub"; "substr"; "substring"; "sup";
    "toLocaleLowerCase"; "toLocaleUpperCase"; "toLowerCase"; "toUpperCase";
    "toWellFormed"; "trim"; "trimEnd"; "trimLeft"; "trimRight"; "trimStart";
    "toExponential"; "toFixed"; "toPrecision" ].

Definition builtin_name (k : string) : bool :=
  existsb (String.eqb k) builtin_names.

(** A number segment that is a safe integer, below 2^53: its property
    key is its decimal text. *)
Definition safe_seg (seg : Seg) : bool :=
  match seg with
  | SIdx n => (n <=? 9007199254740991)%N
  | SKey _ => true
  end.

(** No segment of the path names a built-in member: every read along it
    finds an own property or nothing. *)
Definition plain_path (p : Path) : bool :=
  forallb (fun seg => safe_seg seg && negb (builtin_name (prop_key seg))) p.

(** The two names under which an assignment is not the creation or the
    update of a data property: [__proto__], and [length] on an array. *)
Definition setter_name (k : string) : bool :=
  (k =? "__proto__") || (k =? "length").

Definition assignable_path (p : Path) : bool :=
  forallb (fun seg => safe_seg seg && negb (setter_name (prop_key seg))) p.

(** ** Path relations used by the statements *)

Definition is_container (v : JsVal) : bool :=
  match v with
  | JArr _ _ | JObj _ => true
  | _ => false
  end.


(** [p] and [p'] part ways at some position, on segments that name
    different properties.  A number and its decimal text name the same
    property. *)
Fixpoint diverge (p p' : Path) : bool :=
  match p, p' with
  | s :: r, s' :: r' =>
      if prop_key s =? prop_key s' then diverge r r' else true
  | _, _ => false
  end.



(** The assignment [ref[k] = v] creates or updates a data property: the
    name is not [__proto__], or it is an own property of [ref]. *)
Definition settable (ref : JsVal) (k : string) : Prop :=
  k <> "__proto__" \/ get_prop ref k <> Normal JUndef.


(** The own properties [c] after the assignments [es] on the object, in
    order. *)
Definition put_all (es : list (string * JsVal)) (c : list (string * JsVal))
  : list (string * JsVal) :=
  fold_left (fun acc e => put (fst e) (snd e) acc) es c.

(** The table [c] after the assignments [es], in order. *)
Definition assign_all (es : list (string * JsVal)) (c : list (string * JsVal))
  : list (string * JsVal) :=
  fold_left (fun acc e => assign (fst e) (snd e) acc) es c.

(** *** The cases of normalize, in the words of the specification

    These definitions follow the specification, not the source: the
    ordered mapping built from every row whose type is neither array nor
    object and whose key is present.  A key is present when it is a
    non-empty string. *)
Definition has_key (row : NodeRow) : bool :=
  match key row with
  | Some k => negb (k =? "")
  | None => false
  end.

Definition empty_key (row : NodeRow) : bool :=
  match key row with
  | Some k => k =? ""
  | None => false
  end.

(** The rows that go into the mapping: scalar-typed and keyed. *)
Definition kept (row : NodeRow) : bool :=
  negb (is_container_type (type row)) && has_key row.

Definition entry_of (row : NodeRow) : string * JsVal :=
  (match key row with Some k => k | None => "" end, value row).

(** The ordered mapping of the kept rows: one entry per key, at the place
    of its first row and with the value of its last. *)
Definition mapping_of (rows : list NodeRow) : list (string * JsVal) :=
  build_object (map entry_of (filter kept rows)).

(** *** Acceptance by the reader *)

Fixpoint ws_only (w : string) : bool :=
  match w with
  | EmptyString => true
  | String c w' => is_ws c && ws_only w'
  end.

(** The first character of a serialised value: not white space and not a
    closing bracket. *)
Definition starts_value (t : string) : bool :=
  match t with
  | String c _ =>
      negb (is_ws c)
      && negb (N_of_ascii c =? 93)%N && negb (N_of_ascii c =? 125)%N
  | EmptyString => false
  end.

(** What may follow a value: nothing that would extend a number. *)
Definition rest_ok (r : string) : bool :=
  negb (starts_with is_digit r) && negb (starts_with is_frac_or_exp r).

(** [t] is read as one value, whatever follows it. *)
Definition Accepts (t : string) : Prop :=
  starts_value t = true
  /\ forall fuel rest,
       2 * String.length t <= fuel -> rest_ok rest = true ->
       exists v, parse_value fuel (t ++ rest) = Some (v, rest).

Fixpoint digits_only (s : string) : bool :=
  match s with
  | EmptyString => true
  | String c s' => is_digit c && digits_only s'
  end.

(** The members an object contributes to its serialisation, in creation
    order. *)
Fixpoint members_of (indent : string) (l : list (string * JsVal))
  : list (string * string) :=
  match l with
  | [] => []
  | (k, x) :: l' =>
      if is_undef x then members_of indent l'
      else (k, serialize indent x) :: members_of indent l'
  end.

(** The integers that a number holds exactly, whose text is the decimal
    one. *)
Definition safe_integer (z : Z) : bool :=
  (Z.abs z <=? 9007199254740991)%Z.


(** Induction on values, through the lists of children. *)
Section JsVal_nested_induction.
Variable P : JsVal -> Prop.
Hypothesis HUndef : P JUndef.
Hypothesis HNull : P JNull.
Hypothesis HBool : forall b, P (JBool b).
Hypothesis HNum : forall z, P (JNum z).
Hypothesis HStr : forall s, P (JStr s).
Hypothesis HArr : forall elems extra, Forall P elems -> P (JArr elems extra).
Hypothesis HObj :
  forall props, Forall (fun e => P (snd e)) props -> P (JObj props).

Fixpoint JsVal_nested_ind (v : JsVal) : P v :=
  match v with
  | JUndef => HUndef
  | JNull => HNull
  | JBool b => HBool b
  | JNum z => HNum z
  | JStr s => HStr s
  | JArr elems extra =>
      HArr elems extra
        ((fix go (l : list JsVal) : Forall P l :=
            match l with
            | [] => Forall_nil _
            | x :: l' => Forall_cons x (JsVal_nested_ind x) (go l')
            end) elems)
  | JObj props =>
      HObj props
        ((fix go (l : list (string * JsVal))
            : Forall (fun e => P (snd e)) l :=
            match l with
            | [] => Forall_nil _
            | e :: l' => Forall_cons e (JsVal_nested_ind (snd e)) (go l')
            end) props)
  end.
End JsVal_nested_induction.

(** *** What the reader makes of a serialised value *)

(** [JSON.parse(JSON.stringify(v))]: holes become [null], the non-index
    properties of arrays and the [undefined] properties of objects are
    left out, the properties of an object come in enumeration order. *)
Fixpoint canon (v : JsVal) : JsVal :=
  match v with
  | JUndef => JNull
  | JNull => JNull
  | JBool b => JBool b
  | JNum z => JNum z
  | JStr s => JStr s
  | JArr elems _ =>
      JArr ((fix items (l : list JsVal) : list JsVal :=
               match l with
               | [] => []
               | x :: l' => canon x :: items l'
               end) elems) []
  | JObj props =>
      JObj (build_object (enum_order
        ((fix members (l : list (string * JsVal)) : list (string * JsVal) :=
            match l with
            | [] => []
            | (k, x) :: l' =>
                if is_undef x then members l' else (k, canon x) :: members l'
            end) props)))
  end.

(** [t] is read as the value [v], whatever follows it. *)
Definition Reads (t : string) (v : JsVal) : Prop :=
  forall fuel rest,
    2 * String.length t <= fuel -> rest_ok rest = true ->
    parse_value fuel (t ++ rest) = Some (v, rest).

(** The scalars of JSON. *)
Definition json_scalar (v : JsVal) : bool :=
  match v with
  | JNull | JBool _ | JNum _ | JStr _ => true
  | _ => false
  end.

Definition defined_props (l : list (string * JsVal)) : list (string * JsVal) :=
  filter (fun e => negb (is_undef (snd e))) l.

Definition on_value {A B} (f : A -> B) (e : string * A) : string * B :=
  (fst e, f (snd e)).

(* ================================================================= *)
(** * Properties *)

(** ** Own-property tables and array elements *)

Lemma lookup_assign_same k v ps : lookup k (assign k v ps) = Some v.
Proof.
  induction ps as [|[k' v'] ps IH]; simpl.
  - now rewrite String.eqb_refl.
  - destruct (k' =? k) eqn:E; simpl; rewrite E; auto.
Qed.

Lemma lookup_assign_other k k' v ps :
  k <> k' -> lookup k' (assign k v ps) = lookup k' ps.
Proof.
  intros Hne. induction ps as [|[k0 v0] ps IH]; simpl.
  - destruct (k =? k') eqn:E; auto. apply String.eqb_eq in E. contradiction.
  - destruct (k0 =? k) eqn:E; simpl.
    + apply String.eqb_eq in E. subst k0.
      destruct (k =? k') eqn:E'; auto.
      apply String.eqb_eq in E'. contradiction.
    + destruct (k0 =? k'); auto.
Qed.

Lemma put_cases k v ps :
  (put k v ps = ps /\ k = "__proto__" /\ lookup k ps = None)
  \/ put k v ps = assign k v ps.
Proof.
  unfold put, has_own. destruct (k =? "__proto__") eqn:E; simpl; auto.
  destruct (lookup k ps) eqn:L; simpl; auto.
  apply String.eqb_eq in E. auto.
Qed.

Lemma lookup_put_other k k' v ps :
  k <> k' -> lookup k' (put k v ps) = lookup k' ps.
Proof.
  intros H. destruct (put_cases k v ps) as [(-> & _)| ->]; auto.
  now apply lookup_assign_other.
Qed.

Lemma lookup_put_same k v ps :
  k <> "__proto__" \/ lookup k ps <> None ->
  lookup k (put k v ps) = Some v.
Proof.
  intros H. destruct (put_cases k v ps) as [(_ & Hk & Hl)| ->].
  - destruct H; contradiction.
  - apply lookup_assign_same.
Qed.

Lemma nth_store_same i v l : nth i (store_elem i v l) JUndef = v.
Proof.
  revert l. induction i as [|i IH]; intros [|x l]; simpl; auto.
Qed.

Lemma nth_store_other i j v l :
  i <> j -> nth j (store_elem i v l) JUndef = nth j l JUndef.
Proof.
  revert j l. induction i as [|i IH]; intros [|j] [|x l] Hne; simpl; auto;
    try congruence.
  - now destruct j.
  - rewrite IH by congruence. now destruct j.
Qed.

Lemma array_index_canon k i : array_index k = Some i -> k = N_to_string i.
Proof.
  unfold array_index. destruct (NilZero.uint_of_string k) as [u|]; try discriminate.
  destruct (N_to_string (N.of_uint u) =? k) eqn:E; simpl; try discriminate.
  destruct (N.of_uint u <? 4294967295)%N; try discriminate.
  intros H. inversion H. subst i. apply String.eqb_eq in E. now symmetry.
Qed.

Lemma array_index_inj k k' i j :
  array_index k = Some i -> array_index k' = Some j -> k <> k' ->
  N.to_nat i <> N.to_nat j.
Proof.
  intros Hi Hj Hne Heq. apply N2Nat.inj in Heq. subst j.
  apply array_index_canon in Hi, Hj. congruence.
Qed.

(** ** Property access on containers *)

Lemma get_prop_container ref k :
  is_container ref = true -> exists v, get_prop ref k = Normal v.
Proof.
  destruct ref; simpl; try discriminate; intros _.
  - destruct (array_index k); eauto.
  - eauto.
Qed.

Lemma set_prop_container_total ref k v :
  is_container ref = true ->
  exists ref', set_prop ref k v = Normal ref'
    /\ is_container ref' = true
    /\ forall k', k <> k' -> get_prop ref' k' = get_prop ref k'.
Proof.
  destruct ref; simpl; try discriminate; intros _.
  - destruct (array_index k) as [i|] eqn:Ei.
    + eexists; split; [reflexivity|]. simpl.
      split; [reflexivity|].
      intros k' Hne. destruct (array_index k') as [j|] eqn:Ej; auto.
      rewrite nth_store_other; auto. eapply array_index_inj; eauto.
    + eexists; split; [reflexivity|]. simpl.
      split; [reflexivity|].
      intros k' Hne. destruct (array_index k'); auto.
      now rewrite lookup_put_other.
  - eexists; split; [reflexivity|]. simpl.
    split; [reflexivity|].
    intros k' Hne. now rewrite lookup_put_other.
Qed.

Lemma set_prop_container ref k v :
  is_container ref = true ->
  settable ref k ->
  exists ref', set_prop ref k v = Normal ref'
    /\ is_container ref' = true
    /\ get_prop ref' k = Normal v
    /\ forall k', k <> k' -> get_prop ref' k' = get_prop ref k'.
Proof.
  intros Hc Hw.
  destruct (set_prop_container_total ref k v Hc) as (ref' & Hs & Hc' & Hfr).
  exists ref'. repeat split; auto.
  destruct ref; simpl in *; try discriminate.
  - destruct (array_index k) as [i|] eqn:Ei; inversion Hs; subst ref'; simpl;
      rewrite Ei.
    + now rewrite nth_store_same.
    + rewrite lookup_put_same; auto.
      destruct Hw as [Hw|Hw]; auto. right.
      intros E. apply Hw. simpl. now rewrite Ei, E.
  - inversion Hs; subst ref'; simpl.
    rewrite lookup_put_same; auto.
    destruct Hw as [Hw|Hw]; auto. right.
    intros E. apply Hw. simpl. now rewrite E.
Qed.

Lemma assignable_cons key rest :
  assignable_path (key :: rest) = true ->
  prop_key key <> "__proto__" /\ assignable_path rest = true.
Proof.
  unfold assignable_path, setter_name. cbn [forallb]. intros H.
  apply andb_true_iff in H. destruct H as [H Hr]. split; auto.
  apply andb_true_iff in H. destruct H as [_ H].
  intros E. rewrite E in H. discriminate H.
Qed.

Lemma container_not_nullish v : is_container v = true -> is_nullish v = false.
Proof. now destruct v. Qed.

Lemma keep_iff_container v :
  is_nullish v || negb (typeof_object v) = negb (is_container v).
Proof. now destruct v. Qed.

Lemma fresh_is_container b : is_container (fresh_container b) = true.
Proof. now destruct b. Qed.

Lemma getAtPath_undef p : getAtPath JUndef p = Normal JUndef.
Proof. now destruct p. Qed.


(** ** The walk of [setAtPath] *)

Lemma set_from_spec rest : forall key ref v,
  is_container ref = true ->
  assignable_path (key :: rest) = true ->
  exists ref', set_from ref key rest v = Normal ref'
    /\ is_container ref' = true
    /\ getAtPath ref' (key :: rest) = Normal v
    /\ forall k', prop_key key <> k' -> get_prop ref' k' = get_prop ref k'.
Proof.
  induction rest as [|next rest IH]; intros key ref v Hc Ha;
    destruct (assignable_cons _ _ Ha) as [Hk Har].
  - destruct (set_prop_container ref (prop_key key) v Hc (or_introl Hk))
      as (ref' & Hs & Hc' & Hg & Hfr).
    exists ref'. simpl. rewrite Hs, (container_not_nullish _ Hc'), Hg.
    simpl. auto.
  - cbn [set_from].
    destruct (get_prop_container ref (prop_key key) Hc) as (cur & Hcur).
    rewrite Hcur. cbn [bind]. rewrite keep_iff_container.
    assert (exists ref1, (if negb (is_container cur)
              then set_prop ref (prop_key key)
                     (fresh_container (is_number_seg next))
              else Normal ref) = Normal ref1
            /\ is_container ref1 = true
            /\ (exists child, get_prop ref1 (prop_key key) = Normal child
                  /\ is_container child = true)
            /\ forall k', prop_key key <> k' ->
                 get_prop ref1 k' = get_prop ref k') as (ref1 & H1 & Hc1 & Hch & Hfr1).
    { destruct (is_container cur) eqn:Ecur; simpl.
      - exists ref. repeat split; eauto.
      - destruct (set_prop_container ref (prop_key key)
                    (fresh_container (is_number_seg next)) Hc (or_introl Hk))
          as (ref1 & Hs & Hc1 & Hg & Hfr).
        exists ref1. repeat split; auto.
        eexists; split; [exact Hg | apply fresh_is_container]. }
    rewrite H1. cbn [bind].
    destruct Hch as (child & Hchild & Hcc). rewrite Hchild. cbn [bind].
    destruct (IH next child v Hcc Har) as (child' & Hset & Hcc' & Hget & _).
    rewrite Hset. cbn [bind].
    destruct (set_prop_container ref1 (prop_key key) child' Hc1 (or_introl Hk))
      as (ref2 & Hs2 & Hc2 & Hg2 & Hfr2).
    exists ref2. split; [exact Hs2|]. split; [exact Hc2|]. split.
    + change (getAtPath ref2 (key :: next :: rest))
        with (if is_nullish ref2 then Normal JUndef
              else ref <- get_prop ref2 (prop_key key) ;;
                   getAtPath ref (next :: rest)).
      rewrite (container_not_nullish _ Hc2), Hg2. exact Hget.
    + intros k' Hne. rewrite Hfr2, Hfr1; auto.
Qed.

Lemma builtin_setter k : builtin_name k = false -> setter_name k = false.
Proof.
  unfold builtin_name, builtin_names, setter_name. cbn [existsb].
  destruct (k =? "__proto__"); [discriminate|].
  destruct (k =? "length"); [discriminate|]. reflexivity.
Qed.

Lemma plain_assignable p : plain_path p = true -> assignable_path p = true.
Proof.
  unfold plain_path, assignable_path.
  induction p as [|seg p IH]; cbn [forallb]; auto.
  intros H. apply andb_true_iff in H. destruct H as [H1 H2].
  apply andb_true_iff in H1. destruct H1 as [Hs H1].
  apply negb_true_iff in H1. now rewrite Hs, (builtin_setter _ H1), IH.
Qed.

(** ** C6 *)

Lemma getAtPath_total : forall p T, exists v, getAtPath T p = Normal v.
Proof.
  induction p as [|key rest IH]; intros T; simpl; eauto.
  destruct (is_nullish T) eqn:En; eauto.
  destruct T; try discriminate; simpl.
  - apply IH.
  - apply IH.
  - destruct (array_index (prop_key key)); apply IH.
  - destruct (array_index (prop_key key)); apply IH.
  - apply IH.
Qed.

Lemma getAtPath_app : forall q r T x,
  getAtPath T q = Normal x -> getAtPath T (q ++ r)%list = getAtPath x r.
Proof.
  induction q as [|key q IH]; intros r T x H; simpl in *.
  - now inversion H.
  - destruct (is_nullish T) eqn:En.
    + inversion H. subst x. now rewrite getAtPath_undef.
    + destruct (get_prop T (prop_key key)) as [c|e]; simpl in *;
        [now apply IH | discriminate].
Qed.




(** ** C5 and C3 *)

Lemma assign_assign k v w ps : assign k w (assign k v ps) = assign k w ps.
Proof.
  induction ps as [|[k' v'] ps IH]; simpl.
  - now rewrite String.eqb_refl.
  - destruct (k' =? k) eqn:E; simpl; rewrite E; congruence.
Qed.

Lemma store_store i v w l : store_elem i w (store_elem i v l) = store_elem i w l.
Proof.
  revert l. induction i as [|i IH]; intros [|x l]; simpl; auto;
    now rewrite IH.
Qed.

Lemma has_own_assign k v ps : has_own k (assign k v ps) = true.
Proof. unfold has_own. now rewrite lookup_assign_same. Qed.

Lemma put_put k v w ps : put k w (put k v ps) = put k w ps.
Proof.
  unfold put. destruct (k =? "__proto__") eqn:Ek; simpl.
  - destruct (has_own k ps) eqn:Ho; simpl.
    + rewrite has_own_assign. simpl. apply assign_assign.
    + now rewrite Ho.
  - apply assign_assign.
Qed.

Lemma set_prop_twice ref k v w ref1 :
  set_prop ref k v = Normal ref1 -> set_prop ref1 k w = set_prop ref k w.
Proof.
  destruct ref; simpl; try discriminate;
    try (destruct (k =? "__proto__") eqn:E; [|discriminate];
         intros H; inversion H; subst ref1; simpl; now rewrite E).
  - destruct (array_index k) eqn:E; intros H; inversion H; subst ref1;
      simpl; rewrite E; now rewrite ?store_store, ?put_put.
  - intros H; inversion H; subst ref1; simpl. now rewrite put_put.
Qed.

Lemma set_prop_same_get ref k v ref1 :
  k <> "__proto__" ->
  set_prop ref k v = Normal ref1 -> get_prop ref1 k = Normal v.
Proof.
  intros Hk H.
  assert (Hc : is_container ref = true).
  { destruct ref; try discriminate; auto; simpl in H;
      destruct (k =? "__proto__") eqn:E; try discriminate H;
      apply String.eqb_eq in E; contradiction. }
  destruct (set_prop_container ref k v Hc (or_introl Hk)) as (r & Hs & _ & Hg & _).
  congruence.
Qed.


Lemma set_from_step ref key next rest v cur :
  is_container ref = true ->
  settable ref (prop_key key) ->
  get_prop ref (prop_key key) = Normal cur ->
  set_from ref key (next :: rest) v =
    (child' <- set_from
                 (if is_container cur then cur
                  else fresh_container (is_number_seg next))
                 next rest v ;;
     set_prop ref (prop_key key) child').
Proof.
  intros Hc Hk Hcur.
  cbn [set_from]. rewrite Hcur. cbn [bind]. rewrite keep_iff_container.
  destruct (is_container cur) eqn:Ecur; cbn [negb bind].
  - rewrite Hcur. reflexivity.
  - destruct (set_prop_container ref (prop_key key)
                (fresh_container (is_number_seg next)) Hc Hk)
      as (ref1 & Hs & _ & Hg & _).
    rewrite Hs. cbn [bind]. rewrite Hg. cbn [bind].
    destruct (set_from _ next rest v) as [child'|e]; cbn [bind]; auto.
    now apply set_prop_twice with (v := fresh_container (is_number_seg next)).
Qed.







(** ** C4 *)

Lemma set_from_normal_container ref key rest v r :
  prop_key key <> "__proto__" ->
  set_from ref key rest v = Normal r -> is_container ref = true.
Proof.
  intros Hk. apply String.eqb_neq in Hk.
  destruct rest as [|next rest]; cbn [set_from]; intros H.
  - destruct ref; simpl in *; rewrite ?Hk in H; try discriminate; auto.
  - destruct ref; auto; simpl in H; rewrite ?Hk in H; try discriminate H.
    destruct (array_index (prop_key key)); simpl in H; rewrite ?Hk in H;
      try discriminate H.
    unfold char_at in H.
    destruct (String.get (N.to_nat n) s); simpl in H; rewrite ?Hk in H;
      discriminate H.
Qed.








Lemma diverge_cons s r s' r' :
  diverge (s :: r) (s' :: r') =
  if prop_key s =? prop_key s' then diverge r r' else true.
Proof. reflexivity. Qed.





(** ** C7 *)

Lemma handleSave_with_store nodeData st store :
  handleSave_with (fun s => Normal (getJson s))
                  (fun c h s => (setContents c h s, None)) nodeData st store
  = handleSave nodeData st store.
Proof.
  unfold handleSave_with, handleSave, save_try_with, save_try,
    merge_or_replace.
  destruct (negb (isEditing st) || negb (isDraftValid (draft st)));
    reflexivity.
Qed.



(** ** C2 *)

(** C2 at the empty path: the value [setAtPath] returns for an empty path
    is discarded by [handleSave], so a scalar document 5 edited to 6 is
    committed as 5 again.  And on a root that is [null] the write throws,
    so nothing is committed. *)
Theorem C2_empty_path_replace_is_dropped :
  handleSave (Some {| text := []; path := Some [] |})
    {| isEditing := true; draft := "6"; draftError := None |}
    {| contents := "5"; hasChanges := false |}
  = ({| isEditing := false; draft := "6"; draftError := None |},
     {| contents := "5"; hasChanges := true |})
  /\ handleSave (Some {| text := []; path := Some [SKey "a"] |})
       {| isEditing := true; draft := "6"; draftError := None |}
       {| contents := "null"; hasChanges := false |}
     = ({| isEditing := true; draft := "6"; draftError := None |},
        {| contents := "null"; hasChanges := false |}).
Proof. split; vm_compute; reflexivity. Qed.

(** Where the replacement does reach the document: a non-empty path into
    a root that is an array or an object. *)
Lemma replace_commits_draft nodeData st store root parsedDraft cur :
  isEditing st = true ->
  JSON_parse (getJson store) = Normal root ->
  JSON_parse (draft st) = Normal parsedDraft ->
  getAtPath root (node_path nodeData) = Normal cur ->
  plain_object parsedDraft && plain_object cur = false ->
  node_path nodeData <> [] ->
  assignable_path (node_path nodeData) = true ->
  is_container root = true ->
  exists root',
    handleSave nodeData st store
    = (setIsEditing false st, setContents (JSON_stringify root') true store)
    /\ getAtPath root' (node_path nodeData) = Normal parsedDraft.
Proof.
  intros He Hr Hd Hg Hm Hp Ha Hc. unfold handleSave, isDraftValid, save_try.
  rewrite He, Hd, Hr. cbn [negb orb bind]. rewrite Hg. cbn [bind]. rewrite Hm.
  destruct (node_path nodeData) as [|key rest]; [contradiction|].
  destruct (set_from_spec rest key root parsedDraft Hc Ha)
    as (root' & Hs & _ & Hget & _).
  exists root'. unfold setAtPath. rewrite Hs. cbn [bind fst]. auto.
Qed.

(** ** C1 *)

Lemma assign_entries_object es : forall c,
  assign_entries es (JObj c) = Normal (JObj (put_all es c)).
Proof.
  unfold put_all.
  induction es as [|[k v] es IH]; intros c; simpl; auto.
Qed.

Lemma lookup_not_in k (ps : list (string * JsVal)) :
  ~ In k (map fst ps) -> lookup k ps = None.
Proof.
  induction ps as [|[k' v'] ps IH]; simpl; auto. intros H.
  destruct (k' =? k) eqn:E.
  - apply String.eqb_eq in E. tauto.
  - apply IH. tauto.
Qed.

Lemma has_own_put_other k k' v ps :
  k <> k' -> has_own k' (put k v ps) = has_own k' ps.
Proof. intros H. unfold has_own. now rewrite lookup_put_other. Qed.

(** What the assignments [es] leave under [k]: nothing new under
    [__proto__] unless it was an own property, else the value of [es] for
    [k], else what was there. *)
Lemma lookup_put_all es : forall c k,
  NoDup (map fst es) ->
  lookup k (put_all es c)
  = if (k =? "__proto__") && negb (has_own k c) then None
    else match lookup k es with
         | Some v => Some v
         | None => lookup k c
         end.
Proof.
  unfold put_all.
  induction es as [|[k0 v0] es IH]; intros c k Hnd; simpl.
  - unfold has_own. destruct (lookup k c); [|now destruct (_ =? _)].
    now rewrite andb_false_r.
  - inversion Hnd as [|? ? Hnin Hnd']; subst. rewrite IH by assumption.
    destruct (k0 =? k) eqn:E.
    + apply String.eqb_eq in E. subst k0. rewrite lookup_not_in by assumption.
      unfold put. destruct ((k =? "__proto__") && negb (has_own k c)) eqn:B;
        [now rewrite B|].
      rewrite has_own_assign, andb_false_r. apply lookup_assign_same.
    + apply String.eqb_neq in E.
      now rewrite has_own_put_other, lookup_put_other.
Qed.

Lemma lookup_perm k (l l' : list (string * JsVal)) :
  Permutation l l' -> NoDup (map fst l) -> lookup k l = lookup k l'.
Proof.
  induction 1 as [|[k0 v0] l l' Hp IH|[k0 v0] [k1 v1] l|l l1 l2 Hp1 IH1 Hp2 IH2];
    intros Hnd; simpl; auto.
  - inversion Hnd; subst. now rewrite IH.
  - inversion Hnd as [|? ? Hnin _]; subst.
    destruct (k0 =? k) eqn:E0, (k1 =? k) eqn:E1; auto.
    apply String.eqb_eq in E0, E1. subst. simpl in Hnin. tauto.
  - rewrite IH1 by assumption. apply IH2.
    eapply Permutation_NoDup; [|exact Hnd]. now apply Permutation_map.
Qed.

Lemma insert_by_index_perm {A} i (e : string * A) l :
  Permutation (insert_by_index i e l) ((i, e) :: l).
Proof.
  induction l as [|[j e'] l IH]; simpl; auto.
  destruct (i <? j)%N; auto.
  eapply perm_trans; [apply perm_skip, IH | apply perm_swap].
Qed.

Lemma index_named_perm {A} (l : list (string * A)) :
  Permutation (map snd (index_named l))
              (filter (fun e => is_index_name (fst e)) l).
Proof.
  induction l as [|[k a] l IH]; simpl; auto.
  unfold is_index_name. destruct (array_index k) as [i|]; auto.
  eapply perm_trans; [apply Permutation_map, insert_by_index_perm|].
  simpl. now apply perm_skip.
Qed.

Lemma filter_split_perm {A} (f : A -> bool) (l : list A) :
  Permutation (filter f l ++ filter (fun x => negb (f x)) l)%list l.
Proof.
  induction l as [|x l IH]; simpl; auto.
  destruct (f x); simpl.
  - now apply perm_skip.
  - eapply perm_trans; [apply Permutation_sym, Permutation_middle|].
    now apply perm_skip.
Qed.

Lemma enum_order_perm {A} (l : list (string * A)) :
  Permutation (enum_order l) l.
Proof.
  unfold enum_order.
  eapply perm_trans; [apply Permutation_app_tail, index_named_perm|].
  apply (filter_split_perm (fun e => is_index_name (fst e))).
Qed.

Lemma in_keys_assign k v ps k' :
  In k' (map fst (assign k v ps)) -> k' = k \/ In k' (map fst ps).
Proof.
  induction ps as [|[k0 v0] ps IH]; simpl.
  - intros [H|[]]; auto.
  - destruct (k0 =? k); simpl; intros [H|H]; auto.
    destruct (IH H); auto.
Qed.

Lemma NoDup_assign k v ps :
  NoDup (map fst ps) -> NoDup (map fst (assign k v ps)).
Proof.
  induction ps as [|[k0 v0] ps IH]; simpl; intros Hnd.
  - constructor; [intros [] | constructor].
  - inversion Hnd as [|? ? Hnin Hnd']; subst.
    destruct (k0 =? k) eqn:E; simpl; constructor; auto.
    intros Hin. destruct (in_keys_assign _ _ _ _ Hin) as [H|H]; auto.
    subst k0. now rewrite String.eqb_refl in E.
Qed.

Lemma NoDup_build_object ms : NoDup (map fst (build_object ms)).
Proof.
  unfold build_object.
  assert (H : forall acc, NoDup (map fst acc) ->
            NoDup (map fst (fold_left
              (fun acc e => assign (fst e) (snd e) acc) ms acc))).
  { induction ms as [|e ms IH]; intros acc Ha; simpl; auto.
    apply IH, NoDup_assign, Ha. }
  apply H. constructor.
Qed.

Lemma parse_number_not_object s props r :
  parse_number s <> Some (JObj props, r).
Proof.
  unfold parse_number. destruct s as [|c s]; [discriminate|].
  destruct (N_of_ascii c =? 45)%N.
  - destruct (parse_nat s) as [[n r']|]; discriminate.
  - destruct (parse_nat (String c s)) as [[n r']|]; discriminate.
Qed.

Lemma parse_value_object_NoDup fuel s props r :
  parse_value fuel s = Some (JObj props, r) -> NoDup (map fst props).
Proof.
  destruct fuel as [|f]; [discriminate|]. cbn [parse_value].
  destruct (skip_ws s) as [|c s']; [discriminate|].
  destruct (N_of_ascii c =? 123)%N.
  { destruct (after_char "}" s').
    - intros H; inversion H. constructor.
    - destruct (parse_members f s') as [[ms r']|]; [|discriminate].
      intros H; inversion H. apply NoDup_build_object. }
  destruct (N_of_ascii c =? 91)%N.
  { destruct (after_char "]" s'); [discriminate|].
    destruct (parse_elems f s') as [[vs r']|]; discriminate. }
  destruct (N_of_ascii c =? 34)%N.
  { destruct (parse_chars s') as [[t r']|]; discriminate. }
  destruct (N_of_ascii c =? 116)%N.
  { destruct (strip_prefix "rue" s'); discriminate. }
  destruct (N_of_ascii c =? 102)%N.
  { destruct (strip_prefix "alse" s'); discriminate. }
  destruct (N_of_ascii c =? 110)%N.
  { destruct (strip_prefix "ull" s'); discriminate. }
  intros H. now apply parse_number_not_object in H.
Qed.

Lemma JSON_parse_object_NoDup d props :
  JSON_parse d = Normal (JObj props) -> NoDup (map fst props).
Proof.
  unfold JSON_parse.
  destruct (parse_value _ d) as [[v r]|] eqn:E; [|discriminate].
  destruct (skip_ws r); [|discriminate].
  intros H. inversion H. subst v. eapply parse_value_object_NoDup, E.
Qed.

(** A value reached by [getAtPath] that is a container was reached through
    containers only. *)
Lemma getAtPath_container_source p : forall x cur,
  getAtPath x p = Normal cur -> is_container cur = true ->
  is_container x = true.
Proof.
  induction p as [|seg rest IH]; intros x cur H Hc; simpl in H.
  - now inversion H; subst.
  - destruct x; simpl in H; auto.
    + inversion H; subst; discriminate.
    + inversion H; subst; discriminate.
    + apply IH in H; [discriminate | assumption].
    + apply IH in H; [discriminate | assumption].
    + destruct (array_index (prop_key seg)); simpl in H;
        (apply IH in H; [|assumption]); unfold char_at in H;
        try destruct (String.get _ s); discriminate.
Qed.

Lemma own_container_settable ref k child :
  get_prop ref k = Normal child -> is_container child = true ->
  settable ref k.
Proof.
  intros H Hc. right. rewrite H. intros E. inversion E. subst.
  discriminate Hc.
Qed.

Lemma mutate_at_spec p : forall root cur f new,
  getAtPath root p = Normal cur -> is_container cur = true ->
  f cur = Normal new ->
  exists root', mutate_at root p f = Normal root'
    /\ getAtPath root' p = Normal new.
Proof.
  induction p as [|seg rest IH]; intros root cur f new Hg Hc Hf.
  - simpl in *. inversion Hg; subst. eauto.
  - pose proof (getAtPath_container_source _ _ _ Hg Hc) as Hroot.
    cbn [getAtPath] in Hg. rewrite (container_not_nullish _ Hroot) in Hg.
    destruct (get_prop_container root (prop_key seg) Hroot) as (child & Hch).
    rewrite Hch in Hg. cbn [bind] in Hg.
    destruct (IH child cur f new Hg Hc Hf) as (child' & Hm & Hg').
    pose proof (getAtPath_container_source _ _ _ Hg Hc) as Hcc.
    destruct (set_prop_container root (prop_key seg) child' Hroot
                (own_container_settable _ _ _ Hch Hcc))
      as (root' & Hs & Hc' & Hget & _).
    exists root'. cbn [mutate_at]. rewrite Hch. cbn [bind]. rewrite Hm.
    cbn [bind]. split; [exact Hs|].
    cbn [getAtPath]. rewrite (container_not_nullish _ Hc'), Hget. exact Hg'.
Qed.

(** The merging save: a save whose parsed draft is a plain object, on a
    node (its path free of built-in names) whose current value in the
    freshly parsed document is a plain object, leaves edit mode and commits the serialisation of a document
    whose value at the node's path is an object that has, under a key:
    nothing under [__proto__] when the current object does not have it as
    a property of its own; otherwise the draft's value when the draft has
    the key, and what the current object has there when the draft has
    not. *)
Theorem handleSave_merge :
  forall nodeData st store root dprops cprops,
    plain_path (node_path nodeData) = true ->
    isEditing st = true ->
    JSON_parse (getJson store) = Normal root ->
    JSON_parse (draft st) = Normal (JObj dprops) ->
    getAtPath root (node_path nodeData) = Normal (JObj cprops) ->
    exists root' mprops,
      handleSave nodeData st store
      = (setIsEditing false st, setContents (JSON_stringify root') true store)
      /\ getAtPath root' (node_path nodeData) = Normal (JObj mprops)
      /\ forall k,
           lookup k mprops
           = if (k =? "__proto__") && negb (has_own k cprops) then None
             else match lookup k dprops with
                  | Some v => Some v
                  | None => lookup k cprops
                  end.
Proof.
  intros nodeData st store root dprops cprops _ He Hr Hd Hg.
  pose proof (JSON_parse_object_NoDup _ _ Hd) as Hnd.
  destruct (mutate_at_spec (node_path nodeData) root (JObj cprops)
              (assign_entries (Object_entries (JObj dprops)))
              (JObj (put_all (enum_order dprops) cprops))
              Hg eq_refl (assign_entries_object _ _))
    as (root' & Hm & Hg').
  exists root', (put_all (enum_order dprops) cprops).
  split; [|split; [exact Hg'|]].
  - unfold handleSave, isDraftValid, save_try.
    rewrite He, Hd, Hr. cbn [negb orb bind]. rewrite Hg. cbn [bind].
    cbn [plain_object is_null typeof_object is_array negb andb].
    rewrite Hm. reflexivity.
  - intros k. rewrite lookup_put_all.
    + rewrite (lookup_perm k _ dprops (enum_order_perm dprops)); auto.
      eapply Permutation_NoDup; [|exact Hnd].
      apply Permutation_map, Permutation_sym, enum_order_perm.
    + eapply Permutation_NoDup; [|exact Hnd].
      apply Permutation_map, Permutation_sym, enum_order_perm.
Qed.

Lemma handleSave_merge_witness :
  exists root' mprops,
    handleSave (Some {| text := []; path := Some [SKey "n"] |})
      {| isEditing := true;
         draft := JSON_stringify (JObj [("a", JNum 2); ("c", JNull)]);
         draftError := None |}
      {| contents := JSON_stringify
           (JObj [("n", JObj [("a", JNum 1); ("b", JObj [("x", JNum 1)])])]);
         hasChanges := false |}
    = (setIsEditing false
         {| isEditing := true;
            draft := JSON_stringify (JObj [("a", JNum 2); ("c", JNull)]);
            draftError := None |},
       setContents (JSON_stringify root') true
         {| contents := JSON_stringify
              (JObj [("n", JObj [("a", JNum 1); ("b", JObj [("x", JNum 1)])])]);
            hasChanges := false |})
    /\ getAtPath root' [SKey "n"] = Normal (JObj mprops)
    /\ forall k,
         lookup k mprops
         = if (k =? "__proto__")
              && negb (has_own k [("a", JNum 1); ("b", JObj [("x", JNum 1)])])
           then None
           else match lookup k [("a", JNum 2); ("c", JNull)] with
                | Some v => Some v
                | None => lookup k [("a", JNum 1); ("b", JObj [("x", JNum 1)])]
                end.
Proof.
  apply (handleSave_merge
           (Some {| text := []; path := Some [SKey "n"] |})
           {| isEditing := true;
              draft := JSON_stringify (JObj [("a", JNum 2); ("c", JNull)]);
              draftError := None |}
           {| contents := JSON_stringify
                (JObj [("n", JObj [("a", JNum 1); ("b", JObj [("x", JNum 1)])])]);
              hasChanges := false |}
           (JObj [("n", JObj [("a", JNum 1); ("b", JObj [("x", JNum 1)])])])
           [("a", JNum 2); ("c", JNull)]
           [("a", JNum 1); ("b", JObj [("x", JNum 1)])]);
    vm_compute; reflexivity.
Defined.

(** C1 fails on the code for a draft that holds the key [__proto__]: on
    the document with the object a: 1 under n, the node n saved with the
    draft a: 2, [__proto__]: 1 commits the object a: 2 under n.  The
    parsed draft has [__proto__] as a key of its own with the value 1, the
    loop of the merge visits it, and the assignment under that name binds
    nothing on the current object: the committed node has no such key,
    where the claim has every key of the draft mapped to the draft's
    value. *)
Theorem C1_proto_key_of_draft_is_not_merged :
  let d := "{" ++ dquote ++ "a" ++ dquote ++ ":2,"
           ++ dquote ++ "__proto__" ++ dquote ++ ":1}" in
  let doc := "{" ++ dquote ++ "n" ++ dquote ++ ":{"
             ++ dquote ++ "a" ++ dquote ++ ":1}}" in
  JSON_parse d = Normal (JObj [("a", JNum 2); ("__proto__", JNum 1)])
  /\ Object_entries (JObj [("a", JNum 2); ("__proto__", JNum 1)])
     = [("a", JNum 2); ("__proto__", JNum 1)]
  /\ JSON_parse doc = Normal (JObj [("n", JObj [("a", JNum 1)])])
  /\ handleSave (Some {| text := []; path := Some [SKey "n"] |})
       {| isEditing := true; draft := d; draftError := None |}
       {| contents := doc; hasChanges := false |}
     = ({| isEditing := false; draft := d; draftError := None |},
        {| contents :=
             "{" ++ newline
             ++ "  " ++ dquote ++ "n" ++ dquote ++ ": {" ++ newline
             ++ "    " ++ dquote ++ "a" ++ dquote ++ ": 2" ++ newline
             ++ "  }" ++ newline
             ++ "}";
           hasChanges := true |})
  /\ JSON_parse
       ("{" ++ newline
        ++ "  " ++ dquote ++ "n" ++ dquote ++ ": {" ++ newline
        ++ "    " ++ dquote ++ "a" ++ dquote ++ ": 2" ++ newline
        ++ "  }" ++ newline
        ++ "}")
     = Normal (JObj [("n", JObj [("a", JNum 2)])]).
Proof. repeat apply conj; vm_compute; reflexivity. Qed.

(** ** C8 and C10: the object of the rows *)

Lemma truthy_key_has_key row :
  truthy_key (key row)
  = if has_key row then Some (fst (entry_of row)) else None.
Proof.
  unfold has_key, entry_of. destruct (key row) as [[|c k]|]; reflexivity.
Qed.

Lemma add_row_kept obj row :
  add_row obj row
  = if kept row then assign_on (fst (entry_of row)) (snd (entry_of row)) obj
    else obj.
Proof.
  unfold add_row, kept. rewrite truthy_key_has_key.
  destruct (is_container_type (type row)), (has_key row); reflexivity.
Qed.

Lemma lookup_app k (a b : list (string * JsVal)) :
  lookup k (a ++ b)%list
  = match lookup k a with
    | Some v => Some v
    | None => lookup k b
    end.
Proof.
  induction a as [|[k0 v0] a IH]; simpl; auto. now destruct (k0 =? k).
Qed.

(** In the mapping a key has the value of its last entry. *)
Lemma assign_all_last_wins es : forall c k,
  lookup k (assign_all es c)
  = match lookup k (rev es) with
    | Some v => Some v
    | None => lookup k c
    end.
Proof.
  unfold assign_all.
  induction es as [|[k0 v0] es IH]; intros c k; simpl; auto.
  rewrite IH, lookup_app. destruct (lookup k (rev es)); auto. simpl.
  destruct (k0 =? k) eqn:E.
  - apply String.eqb_eq in E. subst. apply lookup_assign_same.
  - apply String.eqb_neq in E. now apply lookup_assign_other.
Qed.

Lemma mapping_of_last_wins rows k :
  lookup k (mapping_of rows)
  = lookup k (rev (map entry_of (filter kept rows))).
Proof.
  unfold mapping_of, build_object.
  change (fold_left _ ?es []) with (assign_all es []).
  rewrite assign_all_last_wins. now destruct (lookup k _).
Qed.

Lemma assign_on_cases k v obj :
  (snd (assign_on k v obj) = snd obj /\ k = "__proto__")
  \/ assign_on k v obj = (fst obj, assign k v (snd obj)).
Proof.
  unfold assign_on.
  destruct ((k =? "__proto__") && negb (has_own k (snd obj)) && fst obj)
    eqn:B; auto.
  left. split; auto.
  apply andb_true_iff in B. destruct B as [B _].
  apply andb_true_iff in B. destruct B as [B _]. now apply String.eqb_eq.
Qed.

Lemma lookup_assign_on_other k k' v obj :
  k <> k' -> lookup k' (snd (assign_on k v obj)) = lookup k' (snd obj).
Proof.
  intros H. destruct (assign_on_cases k v obj) as [[-> _]| ->]; auto.
  now apply lookup_assign_other.
Qed.

Lemma lookup_assign_on_same k v obj :
  k <> "__proto__" -> lookup k (snd (assign_on k v obj)) = Some v.
Proof.
  intros H. destruct (assign_on_cases k v obj) as [[_ E]| ->];
    [contradiction|]. apply lookup_assign_same.
Qed.

(** Under a key other than [__proto__] the loop leaves the value of the
    last row that is kept and carries the key. *)
Lemma fold_add_row_last_wins rows : forall obj k,
  k <> "__proto__" ->
  lookup k (snd (fold_left add_row rows obj))
  = match lookup k (rev (map entry_of (filter kept rows))) with
    | Some v => Some v
    | None => lookup k (snd obj)
    end.
Proof.
  induction rows as [|row rows IH]; intros obj k Hk; [reflexivity|].
  cbn [fold_left filter]. rewrite IH, add_row_kept by assumption.
  destruct (kept row); [|reflexivity].
  cbn [map rev]. rewrite lookup_app.
  destruct (lookup k (rev _)); [reflexivity|].
  destruct (entry_of row) as [k0 v0]. cbn [lookup fst snd].
  destruct (k0 =? k) eqn:E.
  - apply String.eqb_eq in E. subst. now apply lookup_assign_on_same.
  - apply String.eqb_neq in E. now apply lookup_assign_on_other.
Qed.

(** The setter of [__proto__] ignores a value that is neither [null] nor
    an array or object: the object stays without the key. *)
Lemma assign_on_keeps_setter k v obj :
  fst obj = true -> lookup "__proto__" (snd obj) = None ->
  (k = "__proto__" -> is_nullish v = false /\ is_container v = false) ->
  fst (assign_on k v obj) = true
  /\ lookup "__proto__" (snd (assign_on k v obj)) = None.
Proof.
  intros Hf Hl H. unfold assign_on, has_own.
  destruct (k =? "__proto__") eqn:E.
  - apply String.eqb_eq in E. subst k. rewrite Hl, Hf. simpl.
    split; auto. destruct (H eq_refl) as [Hn Hc].
    destruct v; simpl in *; auto; discriminate.
  - apply String.eqb_neq in E. simpl. split; auto.
    now rewrite lookup_assign_other.
Qed.

Lemma kept_key row :
  kept row = true -> key row = Some (fst (entry_of row)).
Proof.
  unfold kept, has_key, entry_of. destruct (key row); simpl; auto.
  now rewrite andb_false_r.
Qed.

Lemma fold_add_row_no_proto rows : forall obj,
  (forall row, In row rows -> kept row = true ->
     key row = Some "__proto__" -> is_nullish (value row) = false
     /\ is_container (value row) = false) ->
  fst obj = true -> lookup "__proto__" (snd obj) = None ->
  fst (fold_left add_row rows obj) = true
  /\ lookup "__proto__" (snd (fold_left add_row rows obj)) = None.
Proof.
  induction rows as [|row rows IH]; intros obj H Hf Hl; simpl; auto.
  assert (Hstep : fst (add_row obj row) = true
                  /\ lookup "__proto__" (snd (add_row obj row)) = None).
  { rewrite add_row_kept. destruct (kept row) eqn:Ek; auto.
    apply assign_on_keeps_setter; auto.
    intros E. apply (H row (or_introl eq_refl) Ek).
    now rewrite (kept_key _ Ek), E. }
  destruct Hstep as [Hf' Hl'].
  apply IH; auto. intros r Hr. apply H. now right.
Qed.

(** C8 fails on the code for a row whose key is [__proto__]: of the two
    rows [__proto__]: 1 and k: 2, both of type number and both keyed, the
    ordered mapping of the claim has two entries, and its serialisation
    two members; [normalizeNodeData] returns the text of the object with
    the one member k: 2, because the assignment under the name
    [__proto__] binds nothing on the new object. *)
Theorem C8_proto_row_is_dropped :
  let rows := [ {| key := Some "__proto__"; value := JNum 1; type := "number" |};
                {| key := Some "k"; value := JNum 2; type := "number" |} ] in
  filter kept rows = rows
  /\ mapping_of rows = [("__proto__", JNum 1); ("k", JNum 2)]
  /\ JSON_stringify (JObj (mapping_of rows))
     = "{" ++ newline
       ++ "  " ++ dquote ++ "__proto__" ++ dquote ++ ": 1," ++ newline
       ++ "  " ++ dquote ++ "k" ++ dquote ++ ": 2" ++ newline
       ++ "}"
  /\ normalizeNodeData (Some rows)
     = Normal ("{" ++ newline
               ++ "  " ++ dquote ++ "k" ++ dquote ++ ": 2" ++ newline
               ++ "}").
Proof. repeat apply conj; vm_compute; reflexivity. Qed.

Lemma add_row_empty_key obj row : empty_key row = true -> add_row obj row = obj.
Proof.
  unfold empty_key, add_row. destruct (key row) as [[|c k]|]; try discriminate.
  intros _. simpl. now destruct (negb _).
Qed.

Lemma fold_add_row_drop_empty rows : forall obj,
  fold_left add_row rows obj
  = fold_left add_row (filter (fun r => negb (empty_key r)) rows) obj.
Proof.
  induction rows as [|row rows IH]; intros obj; simpl; auto.
  destruct (empty_key row) eqn:E; simpl.
  - now rewrite add_row_empty_key.
  - apply IH.
Qed.

Lemma lookup_empty_add_row obj row :
  lookup "" (snd (add_row obj row)) = lookup "" (snd obj).
Proof.
  unfold add_row. destruct (negb _); auto.
  destruct (key row) as [[|c k]|]; simpl; auto.
  now apply lookup_assign_on_other.
Qed.

Lemma lookup_empty_fold rows : forall obj,
  lookup "" (snd (fold_left add_row rows obj)) = lookup "" (snd obj).
Proof.
  induction rows as [|row rows IH]; intros obj; simpl; auto.
  now rewrite IH, lookup_empty_add_row.
Qed.

Lemma In_assign_on e k v obj :
  In e (snd (assign_on k v obj)) -> e = (k, v) \/ In e (snd obj).
Proof.
  destruct (assign_on_cases k v obj) as [[-> _]| ->]; auto.
  simpl. induction (snd obj) as [|[k0 v0] ps IH]; simpl.
  - intros [H|[]]; auto.
  - destruct (k0 =? k) eqn:E; simpl.
    + apply String.eqb_eq in E. subst k0. intros [H|H]; auto.
    + intros [H|H]; auto. destruct (IH H); auto.
Qed.

(** Every property of the object comes from a kept row. *)
Lemma In_fold_add_row e rows : forall obj,
  In e (snd (fold_left add_row rows obj)) ->
  In e (map entry_of (filter kept rows)) \/ In e (snd obj).
Proof.
  induction rows as [|row rows IH]; intros obj H; simpl in *; auto.
  destruct (IH _ H) as [H'|H'].
  - destruct (kept row); simpl; auto.
  - rewrite add_row_kept in H'. destruct (kept row); simpl; auto.
    destruct (In_assign_on _ _ _ _ H') as [->|H'']; auto.
Qed.

(** ** C9: what the serialiser writes, the reader accepts *)

Lemma sapp_assoc (a b c : string) : (a ++ b) ++ c = a ++ (b ++ c).
Proof. induction a as [|x a IH]; simpl; congruence. Qed.

Lemma sapp_nil_r (a : string) : a ++ "" = a.
Proof. induction a as [|x a IH]; simpl; congruence. Qed.

Lemma slength_app (a b : string) :
  String.length (a ++ b) = String.length a + String.length b.
Proof. induction a as [|x a IH]; simpl; congruence. Qed.

Lemma ws_only_app a b : ws_only a = true -> ws_only b = true ->
  ws_only (a ++ b) = true.
Proof.
  induction a as [|x a IH]; simpl; auto. intros H Hb.
  apply andb_true_iff in H. destruct H as [Hx Ha]. now rewrite Hx, IH.
Qed.

Lemma skip_ws_app w s : ws_only w = true -> skip_ws (w ++ s) = skip_ws s.
Proof.
  induction w as [|c w IH]; simpl; auto. intros H.
  apply andb_true_iff in H. destruct H as [Hc Hw]. rewrite Hc. auto.
Qed.

Lemma skip_ws_start c s : is_ws c = false -> skip_ws (String c s) = String c s.
Proof. intros H. simpl. now rewrite H. Qed.

Lemma parse_value_skip fuel w s :
  ws_only w = true -> parse_value fuel (w ++ s) = parse_value fuel s.
Proof.
  intros H. destruct fuel; auto. cbn [parse_value]. now rewrite skip_ws_app.
Qed.

(** *** Number literals *)

Lemma digits_only_uint u : digits_only (NilEmpty.string_of_uint u) = true.
Proof. induction u; simpl; auto. Qed.

Lemma N_to_string_NilEmpty n :
  N_to_string n = NilEmpty.string_of_uint (N.to_uint n).
Proof.
  unfold N_to_string, NilZero.string_of_uint.
  destruct (N.to_uint n) eqn:E; auto.
  destruct n; simpl in E; [discriminate|].
  now apply DecimalPos.Unsigned.to_uint_nonnil in E.
Qed.

Lemma N_to_uint_nonnil n : N.to_uint n <> Decimal.Nil.
Proof.
  destruct n; simpl; [discriminate|].
  apply DecimalPos.Unsigned.to_uint_nonnil.
Qed.

Lemma N_to_string_digits n :
  digits_only (N_to_string n) = true
  /\ exists c d, N_to_string n = String c d /\ is_digit c = true.
Proof.
  rewrite N_to_string_NilEmpty. split; [apply digits_only_uint|].
  pose proof (N_to_uint_nonnil n) as Hn.
  pose proof (digits_only_uint (N.to_uint n)) as Hd.
  destruct (N.to_uint n); try contradiction; simpl in *;
    eexists _, _; split; reflexivity.
Qed.

Lemma take_digits_app d r :
  digits_only d = true -> starts_with is_digit r = false ->
  take_digits (d ++ r) = (d, r).
Proof.
  intros Hd Hr. induction d as [|c d IH]; simpl in *.
  - destruct r as [|c r]; simpl in *; auto. now rewrite Hr.
  - apply andb_true_iff in Hd. destruct Hd as [Hc Hd].
    now rewrite Hc, IH.
Qed.

Lemma rest_ok_parts r :
  rest_ok r = true ->
  starts_with is_digit r = false /\ starts_with is_frac_or_exp r = false.
Proof.
  unfold rest_ok. intros H. apply andb_true_iff in H. destruct H as [H1 H2].
  now apply negb_true_iff in H1, H2.
Qed.

Lemma parse_nat_N_to_string n r :
  rest_ok r = true -> parse_nat (N_to_string n ++ r) = Some (n, r).
Proof.
  intros Hr. destruct (rest_ok_parts _ Hr) as [Hd Hf].
  unfold parse_nat.
  rewrite take_digits_app by (auto; apply N_to_string_digits).
  unfold N_to_string at 1.
  rewrite NilZero.usu by apply N_to_uint_nonnil.
  rewrite DecimalN.Unsigned.of_to, String.eqb_refl, Hf. reflexivity.
Qed.

Lemma Z_to_string_cases z :
  (0 <= z)%Z /\ Z_to_string z = N_to_string (Z.to_N z)
  \/ (z < 0)%Z /\ Z_to_string z = String "-" (N_to_string (Z.to_N (- z))).
Proof.
  destruct z; [left | left | right]; split; try reflexivity; lia.
Qed.

Lemma parse_value_number f c s :
  is_digit c = true \/ c = "-"%char ->
  parse_value (S f) (String c s) = parse_number (String c s).
Proof.
  intros [H| ->]; [|reflexivity].
  destruct c as [[] [] [] [] [] [] [] []]; try discriminate H; reflexivity.
Qed.

Lemma digit_not_minus c : is_digit c = true -> (N_of_ascii c =? 45)%N = false.
Proof.
  destruct c as [[] [] [] [] [] [] [] []]; intros H; try discriminate H;
    reflexivity.
Qed.

Lemma digit_starts_value c s : is_digit c = true -> starts_value (String c s) = true.
Proof.
  destruct c as [[] [] [] [] [] [] [] []]; intros H; try discriminate H;
    reflexivity.
Qed.

Lemma accepts_number z : Accepts (Z_to_string z).
Proof.
  destruct (N_to_string_digits (Z.to_N z)) as (_ & c & d & Hcd & Hc).
  destruct (N_to_string_digits (Z.to_N (- z))) as (_ & c' & d' & Hcd' & Hc').
  destruct (Z_to_string_cases z) as [[Hz E]|[Hz E]]; rewrite E; split.
  - rewrite Hcd. now apply digit_starts_value.
  - intros fuel rest Hf Hr. rewrite Hcd in Hf. simpl in Hf.
    destruct fuel as [|f]; [lia|].
    exists (JNum z). rewrite Hcd. simpl append.
    rewrite parse_value_number by auto.
    unfold parse_number. rewrite digit_not_minus by assumption.
    change (String c (d ++ rest)) with (String c d ++ rest).
    rewrite <- Hcd, parse_nat_N_to_string by assumption.
    now rewrite Z2N.id.
  - reflexivity.
  - intros fuel rest Hf Hr. simpl in Hf.
    destruct fuel as [|f]; [lia|].
    exists (JNum z). simpl append.
    rewrite parse_value_number by auto.
    unfold parse_number. simpl (N_of_ascii "-" =? 45)%N. cbv iota.
    rewrite parse_nat_N_to_string by assumption.
    rewrite Z2N.id by lia. now rewrite Z.opp_involutive.
Qed.

(** *** Literals and strings *)

Lemma accepts_null : Accepts "null".
Proof.
  split; [reflexivity|]. intros fuel rest Hf _. simpl in Hf.
  destruct fuel as [|f]; [lia|]. eexists. reflexivity.
Qed.

Lemma accepts_bool (b : bool) : Accepts (if b then "true" else "false").
Proof.
  destruct b; (split; [reflexivity|]); intros fuel rest Hf _; simpl in Hf;
    (destruct fuel as [|f]; [lia|]); eexists; reflexivity.
Qed.

Lemma parse_chars_escape_char c tail :
  parse_chars (escape_char c ++ tail) = cons_char c (parse_chars tail).
Proof.
  destruct c as [[] [] [] [] [] [] [] []]; reflexivity.
Qed.

Lemma parse_chars_escape s rest :
  parse_chars (escape s ++ dquote ++ rest) = Some (s, rest).
Proof.
  induction s as [|c s IH]; [reflexivity|].
  cbn [escape]. rewrite sapp_assoc, parse_chars_escape_char, IH. reflexivity.
Qed.

Lemma accepts_string s : Accepts (quote s).
Proof.
  split; [reflexivity|]. intros fuel rest Hf _.
  unfold quote in *. simpl in Hf. destruct fuel as [|f]; [lia|].
  exists (JStr s). unfold dquote at 1. simpl append. cbn [parse_value].
  rewrite skip_ws_start by reflexivity.
  simpl (N_of_ascii _ =? _)%N. cbv iota.
  rewrite sapp_assoc, parse_chars_escape. reflexivity.
Qed.

(** *** Arrays and objects *)

Lemma serialize_array sb elems extra :
  serialize sb (JArr elems extra)
  = bracket "[" "]" sb (sb ++ "  ") (map (serialize (sb ++ "  ")) elems).
Proof.
  reflexivity.
Qed.

Lemma serialize_object sb props :
  serialize sb (JObj props)
  = bracket "{" "}" sb (sb ++ "  ")
      (map member (enum_order (members_of (sb ++ "  ") props))).
Proof.
  simpl serialize at 1. do 3 f_equal.
  induction props as [|[k x] props IH]; [reflexivity|].
  simpl. now rewrite IH.
Qed.

Lemma join_cons2_length sep x y l :
  String.length (join sep (x :: y :: l))
  = String.length x + String.length sep + String.length (join sep (y :: l)).
Proof. cbn [join]. rewrite !slength_app. lia. Qed.

Lemma ws_newline_app sb : ws_only sb = true -> ws_only (newline ++ sb) = true.
Proof. intros H. simpl. exact H. Qed.

Lemma skip_ws_closing sb c rest :
  ws_only sb = true -> is_ws c = false ->
  skip_ws (newline ++ sb ++ String c "" ++ rest) = String c rest.
Proof.
  intros Hsb Hc. rewrite <- sapp_assoc.
  rewrite skip_ws_app by now apply ws_newline_app.
  simpl. now rewrite Hc.
Qed.

Lemma parse_elems_join items : items <> [] -> Forall Accepts items ->
  forall ind sb rest g w,
    ws_only ind = true -> ws_only sb = true -> ws_only w = true ->
    2 * String.length (join ("," ++ newline ++ ind) items) + 1 <= g ->
    exists vs,
      parse_elems g
        (w ++ join ("," ++ newline ++ ind) items
           ++ newline ++ sb ++ "]" ++ rest)
      = Some (vs, rest).
Proof.
  induction items as [|x items IH]; [contradiction|]. intros _ Hall.
  inversion Hall as [|? ? [_ Hx] Hall']; subst.
  intros ind sb rest g w Hind Hsb Hw Hg.
  destruct g as [|g']; [lia|]. cbn [parse_elems].
  destruct items as [|y l].
  - cbn [join] in *. rewrite parse_value_skip by assumption.
    destruct (Hx g' (newline ++ sb ++ "]" ++ rest)) as [v Hv];
      [lia | reflexivity |].
    rewrite Hv. rewrite skip_ws_closing by auto.
    eexists. reflexivity.
  - rewrite join_cons2_length in Hg.
    assert (E : w ++ join ("," ++ newline ++ ind) (x :: y :: l)
                  ++ newline ++ sb ++ "]" ++ rest
                = w ++ x ++ String ","
                    ((newline ++ ind)
                       ++ join ("," ++ newline ++ ind) (y :: l)
                       ++ newline ++ sb ++ "]" ++ rest)).
    { cbn [join]. rewrite !sapp_assoc. reflexivity. }
    rewrite E. rewrite parse_value_skip by assumption.
    destruct (Hx g' (String ","
                ((newline ++ ind)
                   ++ join ("," ++ newline ++ ind) (y :: l)
                   ++ newline ++ sb ++ "]" ++ rest))) as [v Hv];
      [lia | reflexivity |].
    rewrite Hv. rewrite skip_ws_start by reflexivity.
    simpl (N_of_ascii "," =? 44)%N. cbv iota.
    destruct (IH ltac:(discriminate) Hall' ind sb rest g' (newline ++ ind))
      as [vs Hvs]; auto.
    { assert (1 <= String.length ("," ++ newline ++ ind)) by (simpl; lia).
      lia. }
    rewrite Hvs. eexists. reflexivity.
Qed.

Lemma member_length e : String.length (snd e) <= String.length (member e).
Proof. unfold member. rewrite !slength_app. lia. Qed.

Lemma parse_members_join ms : ms <> [] ->
  Forall (fun e => Accepts (snd e)) ms ->
  forall ind sb rest g w,
    ws_only ind = true -> ws_only sb = true -> ws_only w = true ->
    2 * String.length (join ("," ++ newline ++ ind) (map member ms)) + 1 <= g ->
    exists kvs,
      parse_members g
        (w ++ join ("," ++ newline ++ ind) (map member ms)
           ++ newline ++ sb ++ "}" ++ rest)
      = Some (kvs, rest).
Proof.
  induction ms as [|[k t] ms IH]; [contradiction|]. intros _ Hall.
  inversion Hall as [|? ? [_ Hx] Hall']; subst. simpl in Hx.
  intros ind sb rest g w Hind Hsb Hw Hg.
  destruct g as [|g']; [lia|]. cbn [parse_members].
  assert (Hhead : forall tail,
            w ++ member (k, t) ++ tail
            = w ++ String (ascii_of_N 34)
                     (escape k ++ dquote ++ String ":" (" " ++ t ++ tail))).
  { intros tail. unfold member, quote, dquote. simpl fst. simpl snd.
    rewrite !sapp_assoc. reflexivity. }
  pose proof (member_length (k, t)) as Hlen. simpl snd in Hlen.
  destruct ms as [|e2 l].
  - cbn [map join] in *. rewrite Hhead.
    rewrite skip_ws_app, skip_ws_start by (assumption || reflexivity).
    simpl (N_of_ascii _ =? 34)%N. cbv iota.
    rewrite parse_chars_escape, skip_ws_start by reflexivity.
    simpl (N_of_ascii ":" =? 58)%N. cbv iota.
    rewrite parse_value_skip by reflexivity.
    destruct (Hx g' (newline ++ sb ++ "}" ++ rest)) as [v Hv];
      [lia | reflexivity |].
    rewrite Hv. rewrite skip_ws_closing by auto.
    eexists. reflexivity.
  - cbn [map] in *. rewrite join_cons2_length in Hg.
    assert (E : join ("," ++ newline ++ ind)
                  (member (k, t) :: member e2 :: map member l)
                  ++ newline ++ sb ++ "}" ++ rest
                = member (k, t) ++ String ","
                    ((newline ++ ind)
                       ++ join ("," ++ newline ++ ind)
                            (member e2 :: map member l)
                       ++ newline ++ sb ++ "}" ++ rest)).
    { cbn [join]. rewrite !sapp_assoc. reflexivity. }
    rewrite E, Hhead.
    rewrite skip_ws_app, skip_ws_start by (assumption || reflexivity).
    simpl (N_of_ascii _ =? 34)%N. cbv iota.
    rewrite parse_chars_escape, skip_ws_start by reflexivity.
    simpl (N_of_ascii ":" =? 58)%N. cbv iota.
    rewrite parse_value_skip by reflexivity.
    destruct (Hx g' (String ","
                ((newline ++ ind)
                   ++ join ("," ++ newline ++ ind)
                        (member e2 :: map member l)
                   ++ newline ++ sb ++ "}" ++ rest))) as [v Hv];
      [lia | reflexivity |].
    rewrite Hv. rewrite skip_ws_start by reflexivity.
    simpl (N_of_ascii "," =? 44)%N. cbv iota.
    destruct (IH ltac:(discriminate) Hall' ind sb rest g' (newline ++ ind))
      as [kvs Hkvs]; auto.
    { assert (1 <= String.length ("," ++ newline ++ ind)) by (simpl; lia).
      lia. }
    rewrite Hkvs. eexists. reflexivity.
Qed.

Lemma starts_value_app a b : starts_value a = true -> starts_value (a ++ b) = true.
Proof. destruct a; [discriminate | auto]. Qed.

Lemma starts_value_join sep x l :
  starts_value x = true -> starts_value (join sep (x :: l)) = true.
Proof.
  intros H. destruct l; cbn [join]; auto. now apply starts_value_app.
Qed.

Lemma after_char_closing_none c w s :
  ws_only w = true -> starts_value s = true ->
  c = "]"%char \/ c = "}"%char -> after_char c (w ++ s) = None.
Proof.
  intros Hw Hs Hc. unfold after_char. rewrite skip_ws_app by assumption.
  destruct s as [|d s]; [discriminate|]. simpl in Hs.
  apply andb_true_iff in Hs. destruct Hs as [Hs H125].
  apply andb_true_iff in Hs. destruct Hs as [Hws H93].
  apply negb_true_iff in Hws, H93, H125.
  rewrite skip_ws_start by assumption.
  destruct (Ascii.eqb c d) eqn:E; auto. apply Ascii.eqb_eq in E. subst d.
  destruct Hc; subst c; discriminate.
Qed.

Lemma accepts_array_text sb ind items :
  ws_only sb = true -> ws_only ind = true -> Forall Accepts items ->
  Accepts (bracket "[" "]" sb ind items).
Proof.
  intros Hsb Hind Hall. destruct items as [|x items].
  - split; [reflexivity|]. intros fuel rest Hf _. simpl in Hf.
    destruct fuel as [|f]; [lia|]. eexists. reflexivity.
  - split; [reflexivity|]. intros fuel rest Hf Hr.
    assert (Hx : starts_value x = true) by (inversion Hall as [|? ? [H _] _]; auto).
    set (J := join ("," ++ newline ++ ind) (x :: items)) in *.
    assert (E : bracket "[" "]" sb ind (x :: items) ++ rest
                = String "[" ((newline ++ ind) ++ J
                              ++ newline ++ sb ++ "]" ++ rest)).
    { unfold bracket. fold J. rewrite !sapp_assoc. reflexivity. }
    assert (L : String.length J + 4 <= String.length
                  (bracket "[" "]" sb ind (x :: items))).
    { unfold bracket. fold J. rewrite !slength_app. simpl. lia. }
    rewrite E. destruct fuel as [|f]; [lia|]. cbn [parse_value].
    rewrite skip_ws_start by reflexivity.
    simpl (N_of_ascii "[" =? _)%N. cbv iota.
    rewrite after_char_closing_none
      by first [ now apply ws_newline_app
               | apply starts_value_app; unfold J; now apply starts_value_join
               | now left ].
    destruct (parse_elems_join (x :: items) ltac:(discriminate) Hall
                ind sb rest f (newline ++ ind)) as [vs Hvs]; auto.
    { fold J. lia. }
    fold J in Hvs. rewrite Hvs. eexists. reflexivity.
Qed.

Lemma accepts_object_text sb ind ms :
  ws_only sb = true -> ws_only ind = true ->
  Forall (fun e => Accepts (snd e)) ms ->
  Accepts (bracket "{" "}" sb ind (map member ms)).
Proof.
  intros Hsb Hind Hall. destruct ms as [|e ms].
  - split; [reflexivity|]. intros fuel rest Hf _. simpl in Hf.
    destruct fuel as [|f]; [lia|]. eexists. reflexivity.
  - split; [reflexivity|]. intros fuel rest Hf Hr.
    set (J := join ("," ++ newline ++ ind) (map member (e :: ms))) in *.
    assert (E : bracket "{" "}" sb ind (map member (e :: ms)) ++ rest
                = String "{" ((newline ++ ind) ++ J
                              ++ newline ++ sb ++ "}" ++ rest)).
    { unfold bracket. fold J. cbn [map]. rewrite !sapp_assoc. reflexivity. }
    assert (L : String.length J + 4 <= String.length
                  (bracket "{" "}" sb ind (map member (e :: ms)))).
    { unfold bracket. fold J. cbn [map]. rewrite !slength_app. simpl. lia. }
    rewrite E. destruct fuel as [|f]; [lia|]. cbn [parse_value].
    rewrite skip_ws_start by reflexivity.
    simpl (N_of_ascii "{" =? _)%N. cbv iota.
    rewrite after_char_closing_none
      by first [ now apply ws_newline_app
               | apply starts_value_app; unfold J; cbn [map];
                 now apply starts_value_join
               | now right ].
    destruct (parse_members_join (e :: ms) ltac:(discriminate) Hall
                ind sb rest f (newline ++ ind)) as [kvs Hkvs]; auto.
    { fold J. lia. }
    fold J in Hkvs. rewrite Hkvs. eexists. reflexivity.
Qed.

Lemma members_of_accepts ind props :
  Forall (fun e => Accepts (serialize ind (snd e))) props ->
  Forall (fun e => Accepts (snd e)) (members_of ind props).
Proof.
  induction 1 as [|[k x] props Hx Hall IH]; simpl; auto.
  destruct (is_undef x); auto.
Qed.

Lemma serialize_accepted v :
  forall sb, ws_only sb = true -> Accepts (serialize sb v).
Proof.
  induction v using JsVal_nested_ind; intros sb Hsb.
  - apply accepts_null.
  - apply accepts_null.
  - apply accepts_bool.
  - apply accepts_number.
  - apply accepts_string.
  - assert (Hi : ws_only (sb ++ "  ") = true) by now apply ws_only_app.
    rewrite serialize_array. apply accepts_array_text; auto.
    apply Forall_map. eapply Forall_impl; [|eassumption]. auto.
  - assert (Hi : ws_only (sb ++ "  ") = true) by now apply ws_only_app.
    rewrite serialize_object. apply accepts_object_text; auto.
    eapply Permutation_Forall; [apply Permutation_sym, enum_order_perm|].
    apply members_of_accepts. eapply Forall_impl; [|eassumption].
    intros e He. now apply He.
Qed.

Lemma JSON_parse_stringify v : exists v', JSON_parse (JSON_stringify v) = Normal v'.
Proof.
  destruct (serialize_accepted v "" eq_refl) as [_ H].
  destruct (H (2 * String.length (serialize "" v) + 2) "") as [v' Hv'];
    [lia | reflexivity |].
  rewrite sapp_nil_r in Hv'. exists v'.
  unfold JSON_parse, JSON_stringify. now rewrite Hv'.
Qed.




(** C9 fails on the code for a single row without a key that holds an
    object: [normalizeNodeData] returns the text [object Object], which
    [JSON.parse] rejects.  The row is of type object, the kind of row the
    function is there to remove and does remove as soon as there are two
    rows: the same row twice gives the text of the empty object. *)
Theorem C9_single_container_row_does_not_parse :
  let row := {| key := Some ""; value := JObj [("x", JNum 1)];
                type := "object" |} in
  normalizeNodeData (Some [row]) = Normal "[object Object]"
  /\ JSON_parse "[object Object]" = Throw SyntaxError
  /\ normalizeNodeData (Some [row; row]) = Normal "{}"
  /\ JSON_parse "{}" = Normal (JObj []).
Proof. repeat apply conj; vm_compute; reflexivity. Qed.

(** ** The fuel of the reader

    An answer of the reader does not depend on the fuel, once there is
    enough of it, and [JSON_parse] always supplies enough. *)

Lemma skip_ws_length s : String.length (skip_ws s) <= String.length s.
Proof.
  induction s as [|c s IH]; simpl; auto. destruct (is_ws c); simpl; lia.
Qed.

Lemma skip_ws_cons_length s c r :
  skip_ws s = String c r -> String.length r < String.length s.
Proof.
  intros H. pose proof (skip_ws_length s) as L. rewrite H in L. simpl in L. lia.
Qed.

Lemma after_char_length c s r :
  after_char c s = Some r -> String.length r < String.length s.
Proof.
  unfold after_char. destruct (skip_ws s) as [|c' r'] eqn:E; [discriminate|].
  destruct (Ascii.eqb c c'); [|discriminate]. intros H. inversion H. subst.
  eapply skip_ws_cons_length, E.
Qed.

Lemma strip_prefix_length p : forall s r,
  strip_prefix p s = Some r -> String.length r <= String.length s.
Proof.
  induction p as [|a p IH]; intros s r H; simpl in H.
  - inversion H. lia.
  - destruct s as [|b s]; [discriminate|].
    destruct (Ascii.eqb a b); [|discriminate]. apply IH in H. simpl. lia.
Qed.

Lemma cons_char_inv c o t r :
  cons_char c o = Some (t, r) -> exists t', o = Some (t', r).
Proof.
  destruct o as [[t' r']|]; simpl; [|discriminate].
  intros H. inversion H. eauto.
Qed.

Lemma parse_chars_length n : forall s t r,
  String.length s <= n ->
  parse_chars s = Some (t, r) -> String.length r < String.length s.
Proof.
  induction n as [|n IH]; intros s t r Hn H.
  - destruct s; [discriminate | simpl in Hn; lia].
  - destruct s as [|c s]; [discriminate|]. simpl in Hn. cbn [parse_chars] in H.
    destruct (N_of_ascii c =? 34)%N.
    { inversion H. subst. simpl. lia. }
    destruct (N_of_ascii c =? 92)%N.
    { destruct s as [|e s]; [discriminate|]. simpl in Hn.
      destruct (N_of_ascii e =? 117)%N.
      - destruct s as [|h1 [|h2 [|h3 [|h4 s]]]]; try discriminate.
        destruct (unicode_escape h1 h2 h3 h4); [|discriminate].
        apply cons_char_inv in H. destruct H as [t' H].
        apply IH in H; simpl in *; lia.
      - destruct (simple_escape e); [|discriminate].
        apply cons_char_inv in H. destruct H as [t' H].
        apply IH in H; simpl in *; lia. }
    destruct (N_of_ascii c <? 32)%N; [discriminate|].
    apply cons_char_inv in H. destruct H as [t' H].
    apply IH in H; simpl in *; lia.
Qed.

Lemma take_digits_length s : forall d r,
  take_digits s = (d, r) ->
  String.length s = String.length d + String.length r.
Proof.
  induction s as [|c s IH]; intros d r H; simpl in H.
  - inversion H. reflexivity.
  - destruct (is_digit c).
    + destruct (take_digits s) as [d' r'] eqn:E. inversion H. subst.
      simpl. rewrite (IH d' r eq_refl). reflexivity.
    + inversion H. subst. reflexivity.
Qed.

Lemma parse_nat_length s n r :
  parse_nat s = Some (n, r) -> String.length r < String.length s.
Proof.
  unfold parse_nat. destruct (take_digits s) as [d r'] eqn:E.
  apply take_digits_length in E.
  destruct d as [|c d]; [discriminate|].
  destruct (NilZero.uint_of_string (String c d)); [|discriminate].
  destruct (_ && _); [|discriminate].
  intros H. inversion H. subst. simpl in E. lia.
Qed.

Lemma parse_number_length s v r :
  parse_number s = Some (v, r) -> String.length r < String.length s.
Proof.
  unfold parse_number. destruct s as [|c s]; [discriminate|].
  destruct (N_of_ascii c =? 45)%N.
  - destruct (parse_nat s) as [[n r']|] eqn:E; [|discriminate].
    intros H. inversion H. subst. apply parse_nat_length in E. simpl. lia.
  - destruct (parse_nat (String c s)) as [[n r']|] eqn:E; [|discriminate].
    intros H. inversion H. subst. now apply parse_nat_length in E.
Qed.

Lemma parse_fuel f :
  (forall s v r,
      parse_value f s = Some (v, r) ->
      String.length r < String.length s
      /\ forall f', 2 * (String.length s - String.length r) <= f' ->
                    parse_value f' s = Some (v, r))
  /\ (forall s vs r,
        parse_elems f s = Some (vs, r) ->
        String.length r < String.length s
        /\ forall f', 2 * (String.length s - String.length r) + 1 <= f' ->
                      parse_elems f' s = Some (vs, r))
  /\ (forall s ms r,
        parse_members f s = Some (ms, r) ->
        String.length r < String.length s
        /\ forall f', 2 * (String.length s - String.length r) + 1 <= f' ->
                      parse_members f' s = Some (ms, r)).
Proof.
  induction f as [|f (IHv & IHe & IHm)]; [repeat split; discriminate|].
  split; [|split].
  - intros s v r H. cbn [parse_value] in H.
    destruct (skip_ws s) as [|c s'] eqn:Es; [discriminate|].
    pose proof (skip_ws_cons_length _ _ _ Es) as Ls.
    destruct (N_of_ascii c =? 123)%N eqn:E1.
    { destruct (after_char "}" s') as [r0|] eqn:Ea.
      - inversion H; subst. pose proof (after_char_length _ _ _ Ea) as La.
        split; [lia|].
        intros [|f'] Hf'; [lia|]. cbn [parse_value].
        now rewrite Es, E1, Ea.
      - destruct (parse_members f s') as [[ms r0]|] eqn:Em; [|discriminate].
        inversion H; subst. destruct (IHm _ _ _ Em) as [Lm Mm].
        split; [lia|]. intros [|f'] Hf'; [lia|]. cbn [parse_value].
        rewrite Es, E1, Ea, Mm by lia. reflexivity. }
    destruct (N_of_ascii c =? 91)%N eqn:E2.
    { destruct (after_char "]" s') as [r0|] eqn:Ea.
      - inversion H; subst. pose proof (after_char_length _ _ _ Ea) as La.
        split; [lia|].
        intros [|f'] Hf'; [lia|]. cbn [parse_value].
        now rewrite Es, E1, E2, Ea.
      - destruct (parse_elems f s') as [[vs r0]|] eqn:Ee; [|discriminate].
        inversion H; subst. destruct (IHe _ _ _ Ee) as [Le Me].
        split; [lia|]. intros [|f'] Hf'; [lia|]. cbn [parse_value].
        rewrite Es, E1, E2, Ea, Me by lia. reflexivity. }
    destruct (N_of_ascii c =? 34)%N eqn:E3.
    { destruct (parse_chars s') as [[t r0]|] eqn:Ec; [|discriminate].
      inversion H; subst.
      pose proof (parse_chars_length _ _ _ _ (le_n _) Ec) as Lc.
      split; [lia|]. intros [|f'] Hf'; [lia|]. cbn [parse_value].
      now rewrite Es, E1, E2, E3, Ec. }
    destruct (N_of_ascii c =? 116)%N eqn:E4.
    { destruct (strip_prefix "rue" s') as [r0|] eqn:Ep; [|discriminate].
      inversion H; subst. pose proof (strip_prefix_length _ _ _ Ep) as Lp.
      split; [lia|]. intros [|f'] Hf'; [lia|]. cbn [parse_value].
      now rewrite Es, E1, E2, E3, E4, Ep. }
    destruct (N_of_ascii c =? 102)%N eqn:E5.
    { destruct (strip_prefix "alse" s') as [r0|] eqn:Ep; [|discriminate].
      inversion H; subst. pose proof (strip_prefix_length _ _ _ Ep) as Lp.
      split; [lia|]. intros [|f'] Hf'; [lia|]. cbn [parse_value].
      now rewrite Es, E1, E2, E3, E4, E5, Ep. }
    destruct (N_of_ascii c =? 110)%N eqn:E6.
    { destruct (strip_prefix "ull" s') as [r0|] eqn:Ep; [|discriminate].
      inversion H; subst. pose proof (strip_prefix_length _ _ _ Ep) as Lp.
      split; [lia|]. intros [|f'] Hf'; [lia|]. cbn [parse_value].
      now rewrite Es, E1, E2, E3, E4, E5, E6, Ep. }
    pose proof (parse_number_length _ _ _ H) as Ln. simpl in Ln.
    split; [lia|]. intros [|f'] Hf'; [lia|]. cbn [parse_value].
    now rewrite Es, E1, E2, E3, E4, E5, E6.
  - intros s vs r H. cbn [parse_elems] in H.
    destruct (parse_value f s) as [[v r1]|] eqn:Ev; [|discriminate].
    destruct (IHv _ _ _ Ev) as [Lv Mv].
    destruct (skip_ws r1) as [|c r'] eqn:Es; [discriminate|].
    pose proof (skip_ws_cons_length _ _ _ Es) as Ls.
    destruct (N_of_ascii c =? 44)%N eqn:E1.
    { destruct (parse_elems f r') as [[vs' r'']|] eqn:Ee; [|discriminate].
      inversion H; subst. destruct (IHe _ _ _ Ee) as [Le Me].
      split; [lia|]. intros [|f'] Hf'; [lia|]. cbn [parse_elems].
      rewrite Mv by lia. rewrite Es, E1, Me by lia. reflexivity. }
    destruct (N_of_ascii c =? 93)%N eqn:E2; [|discriminate].
    inversion H; subst. split; [lia|].
    intros [|f'] Hf'; [lia|]. cbn [parse_elems].
    rewrite Mv by lia. now rewrite Es, E1, E2.
  - intros s ms r H. cbn [parse_members] in H.
    destruct (skip_ws s) as [|q s1] eqn:Es; [discriminate|].
    pose proof (skip_ws_cons_length _ _ _ Es) as Ls.
    destruct (N_of_ascii q =? 34)%N eqn:E1; [|discriminate].
    destruct (parse_chars s1) as [[k s2]|] eqn:Ec; [|discriminate].
    pose proof (parse_chars_length _ _ _ _ (le_n _) Ec) as Lc.
    destruct (skip_ws s2) as [|col s3] eqn:Es2; [discriminate|].
    pose proof (skip_ws_cons_length _ _ _ Es2) as Ls2.
    destruct (N_of_ascii col =? 58)%N eqn:E2; [|discriminate].
    destruct (parse_value f s3) as [[v s4]|] eqn:Ev; [|discriminate].
    destruct (IHv _ _ _ Ev) as [Lv Mv].
    destruct (skip_ws s4) as [|c s5] eqn:Es4; [discriminate|].
    pose proof (skip_ws_cons_length _ _ _ Es4) as Ls4.
    destruct (N_of_ascii c =? 44)%N eqn:E3.
    { destruct (parse_members f s5) as [[ms' r']|] eqn:Em; [|discriminate].
      inversion H; subst. destruct (IHm _ _ _ Em) as [Lm Mm].
      split; [lia|]. intros [|f'] Hf'; [lia|]. cbn [parse_members].
      rewrite Es, E1, Ec, Es2, E2. rewrite Mv by lia.
      rewrite Es4, E3, Mm by lia. reflexivity. }
    destruct (N_of_ascii c =? 125)%N eqn:E4; [|discriminate].
    inversion H; subst. split; [lia|].
    intros [|f'] Hf'; [lia|]. cbn [parse_members].
    rewrite Es, E1, Ec, Es2, E2. rewrite Mv by lia.
    now rewrite Es4, E3, E4.
Qed.

(** Whatever some fuel reads, the fuel of [JSON_parse] reads. *)
Lemma JSON_parse_fuel_enough f s v r :
  parse_value f s = Some (v, r) ->
  parse_value (2 * String.length s + 2) s = Some (v, r).
Proof.
  intros H. destruct (proj1 (parse_fuel f) _ _ _ H) as [_ M].
  apply M. lia.
Qed.

(* ================================================================= *)
(** * Further properties of the code *)

(** ** getAtPath and setAtPath *)

(** Reading along a concatenation is reading along the first part, then
    along the second from what was reached. *)
Theorem getAtPath_concat :
  forall T q r x,
    getAtPath T q = Normal x ->
    getAtPath T (q ++ r)%list = getAtPath x r.
Proof. intros. now apply getAtPath_app. Qed.

Lemma getAtPath_concat_witness :
  getAtPath (JObj [("a", JArr [JNum 1; JObj [("b", JNull)]] [])])
    ([SKey "a"; SIdx 1] ++ [SKey "b"])%list
  = getAtPath (JObj [("b", JNull)]) [SKey "b"].
Proof.
  apply (getAtPath_concat (JObj [("a", JArr [JNum 1; JObj [("b", JNull)]] [])])
           [SKey "a"; SIdx 1] [SKey "b"] (JObj [("b", JNull)])).
  reflexivity.
Defined.

Lemma set_from_overwrite rest : forall key ref v w ref1,
  is_container ref = true ->
  assignable_path (key :: rest) = true ->
  set_from ref key rest v = Normal ref1 ->
  set_from ref1 key rest w = set_from ref key rest w.
Proof.
  induction rest as [|next rest IH]; intros key ref v w ref1 Hc Ha Hs;
    destruct (assignable_cons _ _ Ha) as [Hk Har].
  - cbn [set_from] in *. now apply set_prop_twice with (v := v).
  - destruct (get_prop_container ref (prop_key key) Hc) as (cur & Hcur).
    rewrite (set_from_step _ _ _ _ _ _ Hc (or_introl Hk) Hcur) in Hs.
    rewrite (set_from_step _ _ _ _ w _ Hc (or_introl Hk) Hcur).
    set (c0 := if is_container cur then cur
               else fresh_container (is_number_seg next)) in *.
    assert (Hc0 : is_container c0 = true).
    { unfold c0. destruct (is_container cur) eqn:E; auto.
      apply fresh_is_container. }
    destruct (set_from c0 next rest v) as [child1|e] eqn:E1; [|discriminate].
    cbn [bind] in Hs.
    destruct (set_from_spec rest next c0 v Hc0 Har) as (c1 & Hc1 & Hcc1 & _).
    rewrite E1 in Hc1. inversion Hc1. subst c1.
    assert (Hr1 : is_container ref1 = true).
    { destruct (set_prop_container_total ref (prop_key key) child1 Hc)
        as (r & Hr & Hcr & _). congruence. }
    pose proof (set_prop_same_get _ _ _ _ Hk Hs) as Hg1.
    rewrite (set_from_step _ _ _ _ w _ Hr1 (or_introl Hk) Hg1), Hcc1.
    rewrite (IH next c0 v w child1 Hc0 Har E1).
    destruct (set_from c0 next rest w) as [child2|e]; cbn [bind]; auto.
    now apply set_prop_twice with (v := child1).
Qed.

(** A second write at the same path wins: along a path none of whose
    segments is [__proto__] or [length], writing [w] where [v] was just
    written gives what writing [w] alone gives. *)
Theorem setAtPath_overwrite :
  forall T p v w T1 r1,
    assignable_path p = true ->
    setAtPath T p v = Normal (T1, r1) ->
    setAtPath T1 p w = setAtPath T p w.
Proof.
  intros T p v w T1 r1 Ha H. destruct p as [|key rest].
  - simpl in *. inversion H. reflexivity.
  - cbn [setAtPath] in *.
    destruct (set_from T key rest v) as [T'|e] eqn:E; [|discriminate].
    cbn [bind] in H. inversion H. subst T1 r1.
    destruct (assignable_cons _ _ Ha) as [Hk _].
    pose proof (set_from_normal_container _ _ _ _ _ Hk E) as Hc.
    now rewrite (set_from_overwrite rest key T v w T' Hc Ha E).
Qed.

Lemma setAtPath_overwrite_witness :
  setAtPath (JObj [("a", JArr [JUndef; JNum 1] [])]) [SKey "a"; SIdx 1] (JNum 2)
  = setAtPath (JObj []) [SKey "a"; SIdx 1] (JNum 2).
Proof.
  apply (setAtPath_overwrite (JObj []) [SKey "a"; SIdx 1] (JNum 1) (JNum 2)
           (JObj [("a", JArr [JUndef; JNum 1] [])])
           (JObj [("a", JArr [JUndef; JNum 1] [])]));
    reflexivity.
Defined.

Lemma assign_same_id k v ps : lookup k ps = Some v -> assign k v ps = ps.
Proof.
  induction ps as [|[k0 v0] ps IH]; simpl; [discriminate|].
  destruct (k0 =? k) eqn:E.
  - intros H. inversion H. reflexivity.
  - intros H. now rewrite IH.
Qed.

Lemma put_same_id k v ps : lookup k ps = Some v -> put k v ps = ps.
Proof.
  intros H. unfold put, has_own. rewrite H, andb_false_r.
  now apply assign_same_id.
Qed.

Lemma store_nth_id : forall i l,
  nth i l JUndef <> JUndef -> store_elem i (nth i l JUndef) l = l.
Proof.
  induction i as [|i IH]; intros [|x l] H; simpl in *; try congruence.
  now rewrite IH.
Qed.

Lemma set_prop_get_same ref k v :
  is_container ref = true ->
  get_prop ref k = Normal v -> v <> JUndef -> set_prop ref k v = Normal ref.
Proof.
  destruct ref; simpl; try discriminate; intros _.
  - destruct (array_index k) as [i|]; intros H Hv; inversion H; subst.
    + now rewrite store_nth_id.
    + destruct (lookup k extra) as [x|] eqn:E; simpl in *; [|congruence].
      now rewrite put_same_id.
  - intros H Hv. inversion H; subst.
    destruct (lookup k props) as [x|] eqn:E; simpl in *; [|congruence].
    now rewrite put_same_id.
Qed.

Lemma container_not_undef v : is_container v = true -> v <> JUndef.
Proof. destruct v; discriminate. Qed.

(** Writing at a path the value it already holds changes nothing: when
    the parent of the last segment is reached through the tree and holds a
    defined value there, the tree after the write is the tree before. *)
Theorem setAtPath_same_value :
  forall p T parent last v,
    getAtPath T p = Normal parent ->
    is_container parent = true ->
    get_prop parent (prop_key last) = Normal v ->
    v <> JUndef ->
    setAtPath T (p ++ [last])%list v = Normal (T, T).
Proof.
  induction p as [|seg p IH]; intros T parent last v Hg Hc Hv Hd.
  - simpl in Hg. inversion Hg. subst parent. simpl.
    now rewrite set_prop_get_same.
  - pose proof (getAtPath_container_source _ _ _ Hg Hc) as HT.
    cbn [getAtPath] in Hg. rewrite (container_not_nullish _ HT) in Hg.
    destruct (get_prop_container T (prop_key seg) HT) as (child & Hch).
    rewrite Hch in Hg. cbn [bind] in Hg.
    pose proof (getAtPath_container_source _ _ _ Hg Hc) as Hcc.
    pose proof (IH child parent last v Hg Hc Hv Hd) as Hrec.
    change ((seg :: p) ++ [last])%list with (seg :: (p ++ [last]))%list.
    destruct (p ++ [last])%list as [|next rest] eqn:E.
    { symmetry in E. now apply app_cons_not_nil in E. }
    cbn [setAtPath] in *.
    rewrite (set_from_step _ _ _ _ _ _ HT
               (own_container_settable _ _ _ Hch Hcc) Hch), Hcc.
    destruct (set_from child next rest v) as [c|e]; [|discriminate].
    cbn [bind] in *. inversion Hrec. subst c.
    rewrite set_prop_get_same; auto. now apply container_not_undef.
Qed.

Lemma setAtPath_same_value_witness :
  setAtPath (JObj [("a", JArr [JNum 1; JNum 2] [])])
    ([SKey "a"] ++ [SIdx 1])%list (JNum 2)
  = Normal (JObj [("a", JArr [JNum 1; JNum 2] [])],
            JObj [("a", JArr [JNum 1; JNum 2] [])]).
Proof.
  apply (setAtPath_same_value [SKey "a"]
           (JObj [("a", JArr [JNum 1; JNum 2] [])])
           (JArr [JNum 1; JNum 2] []) (SIdx 1) (JNum 2));
    [reflexivity | reflexivity | reflexivity | discriminate].
Defined.

(** ** handleSave *)

(** Saving twice is saving once: whatever the first call leaves, a second
    call on it changes nothing. *)
Theorem handleSave_idempotent :
  forall nodeData st store,
    handleSave nodeData (fst (handleSave nodeData st store))
                        (snd (handleSave nodeData st store))
    = handleSave nodeData st store.
Proof.
  intros nodeData st store. unfold handleSave.
  destruct (negb (isEditing st) || negb (isDraftValid (draft st))) eqn:G;
    cbn [fst snd]; [now rewrite G|].
  destruct (save_try (node_path nodeData) (draft st) store) as [u|e] eqn:S;
    cbn [fst snd].
  - reflexivity.
  - now rewrite G, S.
Qed.

Lemma save_try_text p d store t :
  save_try p d store = Normal t -> exists root', t = JSON_stringify root'.
Proof.
  unfold save_try.
  destruct (JSON_parse (getJson store)) as [root|]; [|discriminate].
  destruct (JSON_parse d) as [pd|]; [|discriminate]. cbn [bind].
  destruct (getAtPath root p) as [cur|]; [|discriminate]. cbn [bind].
  destruct (if plain_object pd && plain_object cur then _ else _)
    as [root'|]; [|discriminate].
  cbn [bind]. intros H. inversion H. eauto.
Qed.

(** The store's text stays JSON: if it parses before [handleSave], it
    parses after, whether the save went through or not. *)
Theorem handleSave_keeps_store_parseable :
  forall nodeData st store,
    (exists root, JSON_parse (contents store) = Normal root) ->
    exists root',
      JSON_parse (contents (snd (handleSave nodeData st store)))
      = Normal root'.
Proof.
  intros nodeData st store Hp. unfold handleSave.
  destruct (negb (isEditing st) || negb (isDraftValid (draft st))); auto.
  destruct (save_try (node_path nodeData) (draft st) store) as [u|e] eqn:S;
    auto.
  destruct (save_try_text _ _ _ _ S) as [root' ->].
  cbn [snd setContents contents]. apply JSON_parse_stringify.
Qed.

Lemma handleSave_keeps_store_parseable_witness :
  exists root',
    JSON_parse
      (contents
         (snd (handleSave (Some {| text := []; path := Some [SKey "a"; SIdx 1] |})
                 {| isEditing := true; draft := "[true]"; draftError := None |}
                 {| contents := "{}"; hasChanges := false |})))
    = Normal root'.
Proof.
  apply (handleSave_keeps_store_parseable
           (Some {| text := []; path := Some [SKey "a"; SIdx 1] |})
           {| isEditing := true; draft := "[true]"; draftError := None |}
           {| contents := "{}"; hasChanges := false |}).
  eexists. vm_compute. reflexivity.
Defined.

(** At the root node, a save whose draft or whose document is not a plain
    object commits the document as it was, and leaves edit mode: the value
    [setAtPath] returns for the empty path is dropped. *)
Theorem handleSave_root_replace_is_lost :
  forall nodeData st store root parsedDraft,
    isEditing st = true ->
    JSON_parse (getJson store) = Normal root ->
    JSON_parse (draft st) = Normal parsedDraft ->
    node_path nodeData = [] ->
    plain_object parsedDraft && plain_object root = false ->
    handleSave nodeData st store
    = (setIsEditing false st, setContents (JSON_stringify root) true store).
Proof.
  intros nodeData st store root pd He Hr Hd Hp Hm.
  unfold handleSave, isDraftValid, save_try.
  rewrite He, Hd, Hr, Hp. cbn [negb orb bind getAtPath]. now rewrite Hm.
Qed.

Lemma handleSave_root_replace_is_lost_witness :
  handleSave (Some {| text := []; path := None |})
    {| isEditing := true; draft := "[1]"; draftError := None |}
    {| contents := "{}"; hasChanges := false |}
  = (setIsEditing false
       {| isEditing := true; draft := "[1]"; draftError := None |},
     setContents (JSON_stringify (JObj [])) true
       {| contents := "{}"; hasChanges := false |}).
Proof.
  apply (handleSave_root_replace_is_lost
           (Some {| text := []; path := None |})
           {| isEditing := true; draft := "[1]"; draftError := None |}
           {| contents := "{}"; hasChanges := false |}
           (JObj []) (JArr [JNum 1] [])); reflexivity.
Defined.

Lemma plain_object_container v : plain_object v = true -> is_container v = true.
Proof. destruct v; auto. Qed.

(** Under a document that is [null] or a scalar no node can be saved:
    with a non-empty path none of whose segments names a built-in member,
    the write throws, and [handleSave] changes neither the store nor the
    session. *)
Theorem handleSave_scalar_document_unchanged :
  forall nodeData st store root,
    JSON_parse (getJson store) = Normal root ->
    is_container root = false ->
    node_path nodeData <> [] ->
    plain_path (node_path nodeData) = true ->
    handleSave nodeData st store = (st, store).
Proof.
  intros nodeData st store root Hr Hc Hp Hpl. unfold handleSave.
  destruct (negb (isEditing st) || negb (isDraftValid (draft st)));
    [reflexivity|].
  unfold save_try. rewrite Hr. cbn [bind].
  destruct (JSON_parse (draft st)) as [pd|]; [|reflexivity]. cbn [bind].
  destruct (getAtPath_total (node_path nodeData) root) as (cur & Hcur).
  rewrite Hcur. cbn [bind].
  assert (Hnp : plain_object cur = false).
  { destruct (plain_object cur) eqn:E; auto.
    apply plain_object_container in E.
    pose proof (getAtPath_container_source _ _ _ Hcur E). congruence. }
  rewrite Hnp, andb_false_r.
  apply plain_assignable in Hpl.
  destruct (node_path nodeData) as [|key rest]; [contradiction|].
  destruct (assignable_cons _ _ Hpl) as [Hk _].
  cbn [setAtPath].
  destruct (set_from root key rest pd) as [r|e] eqn:E; [|reflexivity].
  apply set_from_normal_container in E; [congruence | exact Hk].
Qed.

Lemma handleSave_scalar_document_unchanged_witness :
  handleSave (Some {| text := []; path := Some [SIdx 0] |})
    {| isEditing := true; draft := "1"; draftError := None |}
    {| contents := "7"; hasChanges := false |}
  = ({| isEditing := true; draft := "1"; draftError := None |},
     {| contents := "7"; hasChanges := false |}).
Proof.
  apply (handleSave_scalar_document_unchanged
           (Some {| text := []; path := Some [SIdx 0] |})
           {| isEditing := true; draft := "1"; draftError := None |}
           {| contents := "7"; hasChanges := false |}
           (JNum 7)); [reflexivity | reflexivity | discriminate | reflexivity].
Defined.

Lemma mutate_at_frame p : forall root cur f root' p',
  getAtPath root p = Normal cur -> is_container cur = true ->
  mutate_at root p f = Normal root' ->
  diverge p p' = true ->
  getAtPath root' p' = getAtPath root p'.
Proof.
  induction p as [|seg rest IH]; intros root cur f root' p' Hg Hc Hm Hd;
    [discriminate|].
  destruct p' as [|seg' rest']; [discriminate|]. rewrite diverge_cons in Hd.
  pose proof (getAtPath_container_source _ _ _ Hg Hc) as Hroot.
  cbn [getAtPath] in Hg. rewrite (container_not_nullish _ Hroot) in Hg.
  destruct (get_prop_container root (prop_key seg) Hroot) as (child & Hch).
  rewrite Hch in Hg. cbn [bind] in Hg.
  cbn [mutate_at] in Hm. rewrite Hch in Hm. cbn [bind] in Hm.
  destruct (mutate_at child rest f) as [child1|e] eqn:E; [|discriminate].
  cbn [bind] in Hm.
  pose proof (getAtPath_container_source _ _ _ Hg Hc) as Hcc.
  destruct (set_prop_container root (prop_key seg) child1 Hroot
              (own_container_settable _ _ _ Hch Hcc))
    as (r & Hs & Hcr & Hget & Hfr).
  rewrite Hs in Hm. inversion Hm. subst r.
  cbn [getAtPath]. rewrite !container_not_nullish by assumption.
  destruct (prop_key seg =? prop_key seg') eqn:Ek.
  - apply String.eqb_eq in Ek. rewrite <- Ek, Hget, Hch. cbn [bind].
    eapply IH; eauto.
  - apply String.eqb_neq in Ek. now rewrite Hfr.
Qed.

(** A merging save disturbs nothing beside the node: the document it
    commits reads, along every path that parts from the node's path on a
    different property name, what the document read before. *)
Theorem handleSave_merge_frame :
  forall nodeData st store root dprops cprops,
    isEditing st = true ->
    JSON_parse (getJson store) = Normal root ->
    JSON_parse (draft st) = Normal (JObj dprops) ->
    getAtPath root (node_path nodeData) = Normal (JObj cprops) ->
    exists root',
      handleSave nodeData st store
      = (setIsEditing false st, setContents (JSON_stringify root') true store)
      /\ forall p', diverge (node_path nodeData) p' = true ->
                    getAtPath root' p' = getAtPath root p'.
Proof.
  intros nodeData st store root dprops cprops He Hr Hd Hg.
  destruct (mutate_at_spec (node_path nodeData) root (JObj cprops)
              (assign_entries (Object_entries (JObj dprops)))
              (JObj (put_all (enum_order dprops) cprops))
              Hg eq_refl (assign_entries_object _ _))
    as (root' & Hm & _).
  exists root'. split.
  - unfold handleSave, isDraftValid, save_try.
    rewrite He, Hd, Hr. cbn [negb orb bind]. rewrite Hg. cbn [bind].
    cbn [plain_object is_null typeof_object is_array negb andb].
    now rewrite Hm.
  - intros p' Hp'. eapply mutate_at_frame; eauto.
Qed.

Lemma handleSave_merge_frame_witness :
  exists root',
    handleSave (Some {| text := []; path := Some [SKey "n"] |})
      {| isEditing := true;
         draft := JSON_stringify (JObj [("a", JNum 2); ("c", JBool true)]);
         draftError := None |}
      {| contents := JSON_stringify
           (JObj [("n", JObj [("a", JNum 1); ("b", JNull)]); ("m", JNum 1)]);
         hasChanges := false |}
    = (setIsEditing false
         {| isEditing := true;
            draft := JSON_stringify (JObj [("a", JNum 2); ("c", JBool true)]);
            draftError := None |},
       setContents (JSON_stringify root') true
         {| contents := JSON_stringify
              (JObj [("n", JObj [("a", JNum 1); ("b", JNull)]); ("m", JNum 1)]);
            hasChanges := false |})
    /\ forall p', diverge [SKey "n"] p' = true ->
                  getAtPath root' p'
                  = getAtPath
                      (JObj [("n", JObj [("a", JNum 1); ("b", JNull)]);
                             ("m", JNum 1)]) p'.
Proof.
  apply (handleSave_merge_frame
           (Some {| text := []; path := Some [SKey "n"] |})
           {| isEditing := true;
              draft := JSON_stringify (JObj [("a", JNum 2); ("c", JBool true)]);
              draftError := None |}
           {| contents := JSON_stringify
                (JObj [("n", JObj [("a", JNum 1); ("b", JNull)]); ("m", JNum 1)]);
              hasChanges := false |}
           (JObj [("n", JObj [("a", JNum 1); ("b", JNull)]); ("m", JNum 1)])
           [("a", JNum 2); ("c", JBool true)]
           [("a", JNum 1); ("b", JNull)]);
    vm_compute; reflexivity.
Defined.

Lemma mutate_at_id p : forall root cur f,
  getAtPath root p = Normal cur -> is_container cur = true ->
  f cur = Normal cur ->
  mutate_at root p f = Normal root.
Proof.
  induction p as [|seg rest IH]; intros root cur f Hg Hc Hf.
  - simpl in *. inversion Hg. now subst.
  - pose proof (getAtPath_container_source _ _ _ Hg Hc) as Hroot.
    cbn [getAtPath] in Hg. rewrite (container_not_nullish _ Hroot) in Hg.
    destruct (get_prop_container root (prop_key seg) Hroot) as (child & Hch).
    rewrite Hch in Hg. cbn [bind] in Hg.
    pose proof (getAtPath_container_source _ _ _ Hg Hc) as Hcc.
    cbn [mutate_at]. rewrite Hch. cbn [bind].
    rewrite (IH child cur f Hg Hc Hf). cbn [bind].
    apply set_prop_get_same; auto. now apply container_not_undef.
Qed.

Lemma put_all_same es : forall c,
  (forall k v, In (k, v) es -> lookup k c = Some v) ->
  put_all es c = c.
Proof.
  unfold put_all.
  induction es as [|[k v] es IH]; intros c H; simpl; auto.
  rewrite put_same_id by (apply H; now left).
  apply IH. intros k' v' Hin. apply H. now right.
Qed.

Lemma In_lookup (ps : list (string * JsVal)) k v :
  NoDup (map fst ps) -> In (k, v) ps -> lookup k ps = Some v.
Proof.
  induction ps as [|[k0 v0] ps IH]; simpl; [tauto|].
  intros Hnd [H|H]; inversion Hnd as [|? ? Hnin Hnd']; subst.
  - inversion H. subst. now rewrite String.eqb_refl.
  - destruct (k0 =? k) eqn:E; auto.
    apply String.eqb_eq in E. subst k0. exfalso. apply Hnin.
    change k with (fst (k, v)). now apply in_map.
Qed.

Lemma save_of_repeated_values :
  forall nodeData st store root dprops cprops,
    isEditing st = true ->
    JSON_parse (getJson store) = Normal root ->
    JSON_parse (draft st) = Normal (JObj dprops) ->
    getAtPath root (node_path nodeData) = Normal (JObj cprops) ->
    (forall k v, lookup k dprops = Some v -> lookup k cprops = Some v) ->
    handleSave nodeData st store
    = (setIsEditing false st, setContents (JSON_stringify root) true store).
Proof.
  intros nodeData st store root dprops cprops He Hr Hd Hg Hsame.
  pose proof (JSON_parse_object_NoDup _ _ Hd) as Hnd.
  assert (Hall : put_all (enum_order dprops) cprops = cprops).
  { apply put_all_same. intros k v Hin. apply Hsame.
    apply In_lookup; auto.
    eapply Permutation_in; [apply enum_order_perm | exact Hin]. }
  assert (Hm : mutate_at root (node_path nodeData)
                 (assign_entries (Object_entries (JObj dprops)))
               = Normal root).
  { eapply mutate_at_id; eauto.
    cbn [Object_entries]. now rewrite assign_entries_object, Hall. }
  unfold handleSave, isDraftValid, save_try.
  rewrite He, Hd, Hr. cbn [negb orb bind]. rewrite Hg. cbn [bind].
  cbn [plain_object is_null typeof_object is_array negb andb].
  now rewrite Hm.
Qed.

(** A merging save whose draft only repeats what the node already holds
    commits the document as it was: every key of the draft carrying the
    value the current object has under it, the serialised tree is the
    parsed one. *)
Theorem handleSave_unchanged_draft :
  forall nodeData st store root dprops cprops,
    isEditing st = true ->
    JSON_parse (getJson store) = Normal root ->
    JSON_parse (draft st) = Normal (JObj dprops) ->
    getAtPath root (node_path nodeData) = Normal (JObj cprops) ->
    (forall k v, lookup k dprops = Some v -> lookup k cprops = Some v) ->
    handleSave nodeData st store
    = (setIsEditing false st, setContents (JSON_stringify root) true store).
Proof. intros. eapply save_of_repeated_values; eauto. Qed.

Lemma handleSave_unchanged_draft_witness :
  handleSave (Some {| text := []; path := Some [SKey "n"] |})
    {| isEditing := true;
       draft := JSON_stringify (JObj [("a", JNum 1)]);
       draftError := None |}
    {| contents := JSON_stringify
         (JObj [("n", JObj [("a", JNum 1); ("b", JArr [JNull] [])])]);
       hasChanges := false |}
  = (setIsEditing false
       {| isEditing := true;
          draft := JSON_stringify (JObj [("a", JNum 1)]);
          draftError := None |},
     setContents
       (JSON_stringify
          (JObj [("n", JObj [("a", JNum 1); ("b", JArr [JNull] [])])]))
       true
       {| contents := JSON_stringify
            (JObj [("n", JObj [("a", JNum 1); ("b", JArr [JNull] [])])]);
          hasChanges := false |}).
Proof.
  apply (handleSave_unchanged_draft
           (Some {| text := []; path := Some [SKey "n"] |})
           {| isEditing := true;
              draft := JSON_stringify (JObj [("a", JNum 1)]);
              draftError := None |}
           {| contents := JSON_stringify
                (JObj [("n", JObj [("a", JNum 1); ("b", JArr [JNull] [])])]);
              hasChanges := false |}
           (JObj [("n", JObj [("a", JNum 1); ("b", JArr [JNull] [])])])
           [("a", JNum 1)]
           [("a", JNum 1); ("b", JArr [JNull] [])]);
    try (vm_compute; reflexivity).
  intros k v H. cbn [lookup] in *.
  destruct ("a" =? k); [exact H | discriminate].
Defined.

(** ** jsonPathToString *)

Lemma join_render seg rest :
  "[" ++ join "][" (map seg_text (seg :: rest)) ++ "]" = render (seg :: rest).
Proof.
  revert seg. induction rest as [|s2 rest IH]; intros seg.
  - reflexivity.
  - specialize (IH s2). cbn [map join render] in *.
    rewrite <- IH. rewrite !sapp_assoc. reflexivity.
Qed.

Lemma jsonPathToString_render p :
  jsonPathToString p = "$" ++ render (some_path p).
Proof.
  destruct p as [[|seg rest]|]; try reflexivity.
  cbn [some_path]. rewrite <- join_render. reflexivity.
Qed.

Lemma digits_split d1 : forall d2 A B,
  digits_only d1 = true -> digits_only d2 = true ->
  d1 ++ String "]" A = d2 ++ String "]" B -> d1 = d2 /\ A = B.
Proof.
  induction d1 as [|c d1 IH]; intros [|c2 d2] A B H1 H2 E; simpl in *.
  - inversion E. auto.
  - inversion E. subst c2. discriminate H2.
  - inversion E. subst c. discriminate H1.
  - apply andb_true_iff in H1, H2. destruct H1 as [_ H1], H2 as [_ H2].
    inversion E. subst c2. destruct (IH d2 A B H1 H2 H3). subst. auto.
Qed.

Lemma quote_split a : forall b R R',
  quote_free a = true -> quote_free b = true ->
  a ++ String (ascii_of_N 34) R = b ++ String (ascii_of_N 34) R' ->
  a = b /\ R = R'.
Proof.
  induction a as [|c a IH]; intros [|c2 b] R R' H1 H2 E; simpl in *.
  - inversion E. auto.
  - inversion E. subst c2. discriminate H2.
  - inversion E. subst c. discriminate H1.
  - apply andb_true_iff in H1, H2. destruct H1 as [_ H1], H2 as [_ H2].
    inversion E. subst c2. destruct (IH b R R' H1 H2 H3). subst. auto.
Qed.

Lemma N_to_string_inj n m : N_to_string n = N_to_string m -> n = m.
Proof.
  unfold N_to_string. intros H.
  apply (f_equal NilZero.uint_of_string) in H.
  rewrite !NilZero.usu in H by apply N_to_uint_nonnil.
  inversion H as [H'].
  apply (f_equal N.of_uint) in H'.
  now rewrite !DecimalN.Unsigned.of_to in H'.
Qed.

Lemma seg_split s s' A B :
  seg_quote_free s = true -> seg_quote_free s' = true ->
  seg_text s ++ String "]" A = seg_text s' ++ String "]" B ->
  s = s' /\ A = B.
Proof.
  intros Hs Hs' E. destruct s as [a|n], s' as [b|m]; cbn [seg_text] in E.
  - unfold dquote in E. rewrite !sapp_assoc in E. simpl in E, Hs, Hs'.
    inversion E as [E'].
    destruct (quote_split a b _ _ Hs Hs' E') as [-> HR].
    inversion HR. auto.
  - destruct (N_to_string_digits m) as (_ & c & d & Hm & Hc).
    rewrite Hm in E. unfold dquote in E. simpl in E. inversion E. subst c.
    discriminate Hc.
  - destruct (N_to_string_digits n) as (_ & c & d & Hn & Hc).
    rewrite Hn in E. unfold dquote in E. simpl in E. inversion E. subst c.
    discriminate Hc.
  - destruct (digits_split _ _ A B (proj1 (N_to_string_digits n))
                (proj1 (N_to_string_digits m)) E) as [Hnm ->].
    apply N_to_string_inj in Hnm. subst. auto.
Qed.

Lemma render_inj p : forall q,
  forallb seg_quote_free p = true -> forallb seg_quote_free q = true ->
  render p = render q -> p = q.
Proof.
  induction p as [|s p IH]; intros [|s' q] Hp Hq E; auto;
    try discriminate E.
  cbn [forallb] in Hp, Hq. apply andb_true_iff in Hp, Hq.
  destruct Hp as [Hs Hp], Hq as [Hs' Hq].
  cbn [render] in E. simpl in E. inversion E as [E'].
  destruct (seg_split s s' _ _ Hs Hs' E') as [-> Hr].
  f_equal. now apply IH.
Qed.

(** The text of a path names it: two paths whose string keys hold no
    double quote have the same text only when they are the same path (an
    absent path counting as the empty one).  Keys are not escaped, so a
    key that holds quotes and brackets can read as several segments. *)
Theorem jsonPathToString_injective :
  (forall p q,
      forallb seg_quote_free (some_path p) = true ->
      forallb seg_quote_free (some_path q) = true ->
      jsonPathToString p = jsonPathToString q ->
      some_path p = some_path q)
  /\ jsonPathToString
       (Some [SKey ("a" ++ dquote ++ "][" ++ dquote ++ "b")])
     = jsonPathToString (Some [SKey "a"; SKey "b"]).
Proof.
  split; [|reflexivity].
  intros p q Hp Hq E. rewrite !jsonPathToString_render in E.
  inversion E as [E']. now apply render_inj.
Qed.

Lemma jsonPathToString_injective_witness :
  jsonPathToString (Some [SKey "customer"; SIdx 0; SKey "name"])
  = "$[" ++ dquote ++ "customer" ++ dquote ++ "][0]["
    ++ dquote ++ "name" ++ dquote ++ "]"
  /\ some_path (Some [SKey "customer"; SIdx 0; SKey "name"])
     = some_path (Some ([SKey "customer"] ++ [SIdx 0; SKey "name"])%list).
Proof.
  split; [reflexivity|].
  apply (proj1 jsonPathToString_injective
           (Some [SKey "customer"; SIdx 0; SKey "name"])
           (Some ([SKey "customer"] ++ [SIdx 0; SKey "name"])%list));
    reflexivity.
Defined.

(** The text is the bare dollar sign exactly for the root: an absent or
    empty path. *)
Theorem jsonPathToString_root :
  forall p, jsonPathToString p = "$" <-> some_path p = [].
Proof.
  intros p. rewrite jsonPathToString_render. split.
  - destruct (some_path p); [reflexivity | discriminate].
  - intros ->. reflexivity.
Qed.

(** ** normalizeNodeData and the session *)

(** In the object [normalizeNodeData] serialises, a key other than
    [__proto__] is bound to the value of the last scalar-typed row that
    carries it, and a key carried by no such row is not there.  The key
    [__proto__] is not there when every scalar-typed row that carries it
    holds a value that is neither [null] nor an array or object. *)
Theorem normalize_last_scalar_row_wins :
  (forall rows k,
      k <> "__proto__" ->
      lookup k (rows_object rows)
      = lookup k (rev (map entry_of (filter kept rows))))
  /\ (forall rows,
        (forall row, In row rows -> kept row = true ->
           key row = Some "__proto__" ->
           is_nullish (value row) = false
           /\ is_container (value row) = false) ->
        lookup "__proto__" (rows_object rows) = None).
Proof.
  split.
  - intros rows k Hk. unfold rows_object.
    rewrite fold_add_row_last_wins by assumption.
    now destruct (lookup k _).
  - intros rows H. unfold rows_object.
    now apply fold_add_row_no_proto.
Qed.

Lemma normalize_last_scalar_row_wins_witness :
  lookup "a"
    (rows_object
       [ {| key := Some "a"; value := JNum 1; type := "number" |};
         {| key := Some "__proto__"; value := JStr "p"; type := "string" |};
         {| key := Some "a"; value := JNull; type := "object" |};
         {| key := Some "a"; value := JNum 3; type := "number" |} ])
  = Some (JNum 3)
  /\ lookup "__proto__"
       (rows_object
          [ {| key := Some "a"; value := JNum 1; type := "number" |};
            {| key := Some "__proto__"; value := JStr "p"; type := "string" |};
            {| key := Some "a"; value := JNull; type := "object" |};
            {| key := Some "a"; value := JNum 3; type := "number" |} ])
     = None.
Proof.
  split.
  - apply (proj1 normalize_last_scalar_row_wins
             [ {| key := Some "a"; value := JNum 1; type := "number" |};
               {| key := Some "__proto__"; value := JStr "p"; type := "string" |};
               {| key := Some "a"; value := JNull; type := "object" |};
               {| key := Some "a"; value := JNum 3; type := "number" |} ]
             "a").
    discriminate.
  - apply (proj2 normalize_last_scalar_row_wins
             [ {| key := Some "a"; value := JNum 1; type := "number" |};
               {| key := Some "__proto__"; value := JStr "p"; type := "string" |};
               {| key := Some "a"; value := JNull; type := "object" |};
               {| key := Some "a"; value := JNum 3; type := "number" |} ]).
    intros row [H|[H|[H|[H|[]]]]] _ Hk; subst row;
      try discriminate Hk; split; reflexivity.
Defined.

Lemma parse_value_brace fuel s v r :
  parse_value fuel (String "{" s) = Some (v, r) -> exists props, v = JObj props.
Proof.
  destruct fuel as [|f]; [discriminate|]. cbn [parse_value].
  rewrite skip_ws_start by reflexivity.
  simpl (N_of_ascii "{" =? 123)%N. cbv iota.
  destruct (after_char "}" s).
  - intros H. inversion H. eauto.
  - destruct (parse_members f s) as [[ms r']|]; [|discriminate].
    intros H. inversion H. eauto.
Qed.

Lemma serialize_object_brace sb props :
  exists t, serialize sb (JObj props) = String "{" t.
Proof.
  rewrite serialize_object. unfold bracket.
  destruct (map member _); eexists; reflexivity.
Qed.

Lemma JSON_parse_stringify_object tbl :
  exists props, JSON_parse (JSON_stringify (JObj tbl)) = Normal (JObj props).
Proof.
  destruct (JSON_parse_stringify (JObj tbl)) as [v Hv].
  unfold JSON_parse, JSON_stringify in *.
  destruct (serialize_object_brace "" tbl) as [t Ht]. rewrite Ht in *.
  destruct (parse_value _ (String "{" t)) as [[v' r]|] eqn:E; [|discriminate].
  destruct (parse_value_brace _ _ _ _ E) as [props ->].
  destruct (skip_ws r); [|discriminate]. eauto.
Qed.

(** For every row list but a single row without a key,
    [normalizeNodeData] returns a text, and the text parses to a plain
    object. *)
Theorem normalize_parses_to_object :
  forall rows,
    (forall row, rows = [row] -> has_key row = true) ->
    exists t props,
      normalizeNodeData (Some rows) = Normal t
      /\ JSON_parse t = Normal (JObj props).
Proof.
  intros [|row0 others] H; [exists "{}", []; split; reflexivity|].
  unfold normalizeNodeData. rewrite truthy_key_has_key.
  destruct (JSON_parse_stringify_object
              (rows_object (row0 :: others))) as [props Hp].
  destruct others as [|row1 others].
  - rewrite (H row0 eq_refl). eauto.
  - destruct (has_key row0); eauto.
Qed.

Lemma normalize_parses_to_object_witness :
  exists t props,
    normalizeNodeData
      (Some [ {| key := Some "k"; value := JStr "v"; type := "string" |} ])
    = Normal t
    /\ JSON_parse t = Normal (JObj props).
Proof.
  apply (normalize_parses_to_object
           [ {| key := Some "k"; value := JStr "v"; type := "string" |} ]).
  intros row H. inversion H. reflexivity.
Defined.

(** Opening the modal, or cancelling, and then pressing Edit leaves the
    Save button enabled, for every node but one with a single row without
    a key: the draft is seeded, and the seeded draft is valid. *)
Theorem seeded_draft_enables_save :
  forall nodeData st,
    (forall row, node_text nodeData = [row] -> has_key row = true) ->
    (exists st1, resetOnOpen true nodeData st = Normal st1
                 /\ saveDisabled (beginEdit st1) = false)
    /\ (exists st2, handleCancel nodeData st = Normal st2
                    /\ saveDisabled (beginEdit st2) = false).
Proof.
  intros nodeData st H.
  destruct (normalize_parses_to_object (node_text nodeData) H)
    as (t & props & Ht & Hp).
  unfold resetOnOpen, handleCancel. rewrite Ht. cbn [bind].
  split; eexists; (split; [reflexivity|]);
    unfold saveDisabled, beginEdit, setIsEditing, isDraftValid;
    cbn [isEditing draft]; now rewrite Hp.
Qed.

Lemma seeded_draft_enables_save_witness :
  (exists st1,
      resetOnOpen true
        (Some {| text := [ {| key := Some "k"; value := JNum 1;
                              type := "number" |} ];
                 path := None |})
        {| isEditing := true; draft := "x"; draftError := Some "e" |}
      = Normal st1
      /\ saveDisabled (beginEdit st1) = false)
  /\ (exists st2,
        handleCancel
          (Some {| text := [ {| key := Some "k"; value := JNum 1;
                                type := "number" |} ];
                   path := None |})
          {| isEditing := true; draft := "x"; draftError := Some "e" |}
        = Normal st2
        /\ saveDisabled (beginEdit st2) = false).
Proof.
  apply (seeded_draft_enables_save
           (Some {| text := [ {| key := Some "k"; value := JNum 1;
                                 type := "number" |} ];
                    path := None |})
           {| isEditing := true; draft := "x"; draftError := Some "e" |}).
  intros row H. inversion H. reflexivity.
Defined.

(** ** Reading back what was serialised *)

Lemma reads_number z : Reads (Z_to_string z) (JNum z).
Proof.
  destruct (N_to_string_digits (Z.to_N z)) as (_ & c & d & Hcd & Hc).
  destruct (Z_to_string_cases z) as [[Hz E]|[Hz E]]; rewrite E;
    intros fuel rest Hf Hr.
  - rewrite Hcd in Hf. simpl in Hf. destruct fuel as [|f]; [lia|].
    rewrite Hcd. simpl append. rewrite parse_value_number by auto.
    unfold parse_number. rewrite digit_not_minus by assumption.
    change (String c (d ++ rest)) with (String c d ++ rest).
    rewrite <- Hcd, parse_nat_N_to_string by assumption.
    now rewrite Z2N.id.
  - simpl in Hf. destruct fuel as [|f]; [lia|]. simpl append.
    rewrite parse_value_number by auto.
    unfold parse_number. simpl (N_of_ascii "-" =? 45)%N. cbv iota.
    rewrite parse_nat_N_to_string by assumption.
    rewrite Z2N.id by lia. now rewrite Z.opp_involutive.
Qed.

Lemma reads_null : Reads "null" JNull.
Proof.
  intros fuel rest Hf _. simpl in Hf. destruct fuel as [|f]; [lia|].
  reflexivity.
Qed.

Lemma reads_bool (b : bool) : Reads (if b then "true" else "false") (JBool b).
Proof.
  destruct b; intros fuel rest Hf _; simpl in Hf;
    (destruct fuel as [|f]; [lia|]); reflexivity.
Qed.

Lemma reads_string s : Reads (quote s) (JStr s).
Proof.
  intros fuel rest Hf _.
  unfold quote in *. simpl in Hf. destruct fuel as [|f]; [lia|].
  unfold dquote at 1. simpl append. cbn [parse_value].
  rewrite skip_ws_start by reflexivity.
  simpl (N_of_ascii _ =? _)%N. cbv iota.
  rewrite sapp_assoc, parse_chars_escape. reflexivity.
Qed.

Lemma reads_elems items vs : Forall2 Reads items vs -> items <> [] ->
  forall ind sb rest g w,
    ws_only ind = true -> ws_only sb = true -> ws_only w = true ->
    2 * String.length (join ("," ++ newline ++ ind) items) + 1 <= g ->
    parse_elems g
      (w ++ join ("," ++ newline ++ ind) items
         ++ newline ++ sb ++ "]" ++ rest)
    = Some (vs, rest).
Proof.
  induction 1 as [|x v items vs Hx Hall IH]; [contradiction|]. intros _.
  intros ind sb rest g w Hind Hsb Hw Hg.
  destruct g as [|g']; [lia|]. cbn [parse_elems].
  destruct Hall as [|y v2 l vs2 Hy Hall].
  - cbn [join] in *. rewrite parse_value_skip by assumption.
    rewrite (Hx g' (newline ++ sb ++ "]" ++ rest)) by (lia || reflexivity).
    rewrite skip_ws_closing by auto. reflexivity.
  - rewrite join_cons2_length in Hg.
    assert (E : w ++ join ("," ++ newline ++ ind) (x :: y :: l)
                  ++ newline ++ sb ++ "]" ++ rest
                = w ++ x ++ String ","
                    ((newline ++ ind)
                       ++ join ("," ++ newline ++ ind) (y :: l)
                       ++ newline ++ sb ++ "]" ++ rest)).
    { cbn [join]. rewrite !sapp_assoc. reflexivity. }
    rewrite E. rewrite parse_value_skip by assumption.
    rewrite (Hx g' (String ","
                ((newline ++ ind)
                   ++ join ("," ++ newline ++ ind) (y :: l)
                   ++ newline ++ sb ++ "]" ++ rest)))
      by (lia || reflexivity).
    rewrite skip_ws_start by reflexivity.
    simpl (N_of_ascii "," =? 44)%N. cbv iota.
    rewrite (IH ltac:(discriminate) ind sb rest g' (newline ++ ind)); auto.
    assert (1 <= String.length ("," ++ newline ++ ind)) by (simpl; lia).
    lia.
Qed.

Lemma reads_members ms kvs :
  Forall2 (fun e kv => fst e = fst kv /\ Reads (snd e) (snd kv)) ms kvs ->
  ms <> [] ->
  forall ind sb rest g w,
    ws_only ind = true -> ws_only sb = true -> ws_only w = true ->
    2 * String.length (join ("," ++ newline ++ ind) (map member ms)) + 1 <= g ->
    parse_members g
      (w ++ join ("," ++ newline ++ ind) (map member ms)
         ++ newline ++ sb ++ "}" ++ rest)
    = Some (kvs, rest).
Proof.
  induction 1 as [|[k t] [k' v] ms kvs [Hk Hx] Hall IH]; [contradiction|].
  intros _. simpl in Hk, Hx. subst k'.
  intros ind sb rest g w Hind Hsb Hw Hg.
  destruct g as [|g']; [lia|]. cbn [parse_members].
  assert (Hhead : forall tail,
            w ++ member (k, t) ++ tail
            = w ++ String (ascii_of_N 34)
                     (escape k ++ dquote ++ String ":" (" " ++ t ++ tail))).
  { intros tail. unfold member, quote, dquote. simpl fst. simpl snd.
    rewrite !sapp_assoc. reflexivity. }
  pose proof (member_length (k, t)) as Hlen. simpl snd in Hlen.
  destruct Hall as [|e2 kv2 l kvs2 He2 Hall].
  - cbn [map join] in *. rewrite Hhead.
    rewrite skip_ws_app, skip_ws_start by (assumption || reflexivity).
    simpl (N_of_ascii _ =? 34)%N. cbv iota.
    rewrite parse_chars_escape, skip_ws_start by reflexivity.
    simpl (N_of_ascii ":" =? 58)%N. cbv iota.
    rewrite parse_value_skip by reflexivity.
    rewrite (Hx g' (newline ++ sb ++ "}" ++ rest)) by (lia || reflexivity).
    rewrite skip_ws_closing by auto. reflexivity.
  - cbn [map] in *. rewrite join_cons2_length in Hg.
    assert (E : join ("," ++ newline ++ ind)
                  (member (k, t) :: member e2 :: map member l)
                  ++ newline ++ sb ++ "}" ++ rest
                = member (k, t) ++ String ","
                    ((newline ++ ind)
                       ++ join ("," ++ newline ++ ind)
                            (member e2 :: map member l)
                       ++ newline ++ sb ++ "}" ++ rest)).
    { cbn [join]. rewrite !sapp_assoc. reflexivity. }
    rewrite E, Hhead.
    rewrite skip_ws_app, skip_ws_start by (assumption || reflexivity).
    simpl (N_of_ascii _ =? 34)%N. cbv iota.
    rewrite parse_chars_escape, skip_ws_start by reflexivity.
    simpl (N_of_ascii ":" =? 58)%N. cbv iota.
    rewrite parse_value_skip by reflexivity.
    rewrite (Hx g' (String ","
                ((newline ++ ind)
                   ++ join ("," ++ newline ++ ind)
                        (member e2 :: map member l)
                   ++ newline ++ sb ++ "}" ++ rest)))
      by (lia || reflexivity).
    rewrite skip_ws_start by reflexivity.
    simpl (N_of_ascii "," =? 44)%N. cbv iota.
    rewrite (IH ltac:(discriminate) ind sb rest g' (newline ++ ind)); auto.
    assert (1 <= String.length ("," ++ newline ++ ind)) by (simpl; lia).
    lia.
Qed.

Lemma reads_array_text sb ind items vs :
  ws_only sb = true -> ws_only ind = true ->
  Forall Accepts items -> Forall2 Reads items vs ->
  Reads (bracket "[" "]" sb ind items) (JArr vs []).
Proof.
  intros Hsb Hind Hacc Hall. destruct Hall as [|x v items vs Hx Hall].
  - intros fuel rest Hf _. simpl in Hf.
    destruct fuel as [|f]; [lia|]. reflexivity.
  - intros fuel rest Hf Hr.
    assert (Hsx : starts_value x = true)
      by (inversion Hacc as [|? ? [H _] _]; auto).
    set (J := join ("," ++ newline ++ ind) (x :: items)) in *.
    assert (E : bracket "[" "]" sb ind (x :: items) ++ rest
                = String "[" ((newline ++ ind) ++ J
                              ++ newline ++ sb ++ "]" ++ rest)).
    { unfold bracket. fold J. rewrite !sapp_assoc. reflexivity. }
    assert (L : String.length J + 4 <= String.length
                  (bracket "[" "]" sb ind (x :: items))).
    { unfold bracket. fold J. rewrite !slength_app. simpl. lia. }
    rewrite E. destruct fuel as [|f]; [lia|]. cbn [parse_value].
    rewrite skip_ws_start by reflexivity.
    simpl (N_of_ascii "[" =? _)%N. cbv iota.
    rewrite after_char_closing_none
      by first [ now apply ws_newline_app
               | apply starts_value_app; unfold J; now apply starts_value_join
               | now left ].
    unfold J.
    rewrite (reads_elems (x :: items) (v :: vs))
      by first [ now constructor | discriminate | assumption
               | now apply ws_newline_app | fold J; lia ].
    reflexivity.
Qed.

Lemma reads_object_text sb ind ms kvs :
  ws_only sb = true -> ws_only ind = true ->
  Forall2 (fun e kv => fst e = fst kv /\ Reads (snd e) (snd kv)) ms kvs ->
  Reads (bracket "{" "}" sb ind (map member ms)) (JObj (build_object kvs)).
Proof.
  intros Hsb Hind Hall. destruct Hall as [|e kv ms kvs He Hall].
  - intros fuel rest Hf _. simpl in Hf.
    destruct fuel as [|f]; [lia|]. reflexivity.
  - intros fuel rest Hf Hr.
    set (J := join ("," ++ newline ++ ind) (map member (e :: ms))) in *.
    assert (E : bracket "{" "}" sb ind (map member (e :: ms)) ++ rest
                = String "{" ((newline ++ ind) ++ J
                              ++ newline ++ sb ++ "}" ++ rest)).
    { unfold bracket. fold J. cbn [map]. rewrite !sapp_assoc. reflexivity. }
    assert (L : String.length J + 4 <= String.length
                  (bracket "{" "}" sb ind (map member (e :: ms)))).
    { unfold bracket. fold J. cbn [map]. rewrite !slength_app. simpl. lia. }
    rewrite E. destruct fuel as [|f]; [lia|]. cbn [parse_value].
    rewrite skip_ws_start by reflexivity.
    simpl (N_of_ascii "{" =? _)%N. cbv iota.
    rewrite after_char_closing_none
      by first [ now apply ws_newline_app
               | apply starts_value_app; unfold J; cbn [map];
                 now apply starts_value_join
               | now right ].
    unfold J.
    rewrite (reads_members (e :: ms) (kv :: kvs))
      by first [ now constructor | discriminate | assumption
               | now apply ws_newline_app | fold J; lia ].
    reflexivity.
Qed.

Lemma canon_array elems extra :
  canon (JArr elems extra) = JArr (map canon elems) [].
Proof. reflexivity. Qed.

Lemma canon_object props :
  canon (JObj props)
  = JObj (build_object
            (enum_order (map (on_value canon) (defined_props props)))).
Proof.
  simpl canon at 1. do 3 f_equal.
  induction props as [|[k x] props IH]; [reflexivity|].
  unfold defined_props in *. simpl. destruct (is_undef x); simpl; auto.
  now rewrite IH.
Qed.

Lemma members_of_defined ind props :
  members_of ind props = map (on_value (serialize ind)) (defined_props props).
Proof.
  induction props as [|[k x] props IH]; [reflexivity|].
  unfold defined_props in *. simpl. destruct (is_undef x); simpl; auto.
  now rewrite IH.
Qed.

Lemma insert_by_index_map {A B} (f : A -> B) i e l :
  insert_by_index i (on_value f e)
    (map (fun je => (fst je, on_value f (snd je))) l)
  = map (fun je => (fst je, on_value f (snd je))) (insert_by_index i e l).
Proof.
  induction l as [|[j e'] l IH]; simpl; auto.
  destruct (i <? j)%N; simpl; auto. now rewrite IH.
Qed.

Lemma index_named_map {A B} (f : A -> B) l :
  index_named (map (on_value f) l)
  = map (fun je => (fst je, on_value f (snd je))) (index_named l).
Proof.
  induction l as [|[k a] l IH]; simpl; auto.
  destruct (array_index k); auto.
  rewrite IH. apply (insert_by_index_map f n (k, a)).
Qed.

Lemma enum_order_map {A B} (f : A -> B) l :
  enum_order (map (on_value f) l) = map (on_value f) (enum_order l).
Proof.
  unfold enum_order. rewrite index_named_map, map_app, !map_map. f_equal.
  induction l as [|[k a] l IH]; simpl; auto.
  destruct (negb (is_index_name k)); simpl; now rewrite IH.
Qed.

Lemma Forall2_map_same {A} (f : A -> string) (g : A -> JsVal) l :
  Forall (fun x => Reads (f x) (g x)) l ->
  Forall2 Reads (map f l) (map g l).
Proof. induction 1; simpl; constructor; auto. Qed.

Lemma Forall2_members ind l :
  Forall (fun e => Reads (serialize ind (snd e)) (canon (snd e))) l ->
  Forall2 (fun e kv => fst e = fst kv /\ Reads (snd e) (snd kv))
    (map (on_value (serialize ind)) l) (map (on_value canon) l).
Proof. induction 1; simpl; constructor; auto. Qed.

Lemma serialize_reads v :
  forall sb, ws_only sb = true -> Reads (serialize sb v) (canon v).
Proof.
  induction v using JsVal_nested_ind; intros sb Hsb.
  - apply reads_null.
  - apply reads_null.
  - apply reads_bool.
  - apply reads_number.
  - apply reads_string.
  - assert (Hi : ws_only (sb ++ "  ") = true) by now apply ws_only_app.
    rewrite serialize_array, canon_array. apply reads_array_text; auto.
    + apply Forall_map. apply Forall_forall. intros x _.
      now apply serialize_accepted.
    + apply Forall2_map_same. eapply Forall_impl; [|eassumption]. auto.
  - assert (Hi : ws_only (sb ++ "  ") = true) by now apply ws_only_app.
    rewrite serialize_object, canon_object, members_of_defined.
    rewrite !enum_order_map. apply reads_object_text; auto.
    apply Forall2_members.
    eapply Permutation_Forall; [apply Permutation_sym, enum_order_perm|].
    unfold defined_props. apply Forall_forall. intros e He.
    apply filter_In in He. destruct He as [He _].
    rewrite Forall_forall in H. now apply H.
Qed.

(** What [JSON.parse] reads from [JSON.stringify(v, null, 2)]. *)
Lemma JSON_parse_stringify_canon v :
  JSON_parse (JSON_stringify v) = Normal (canon v).
Proof.
  pose proof (serialize_reads v "" eq_refl
                (2 * String.length (serialize "" v) + 2) "") as H.
  rewrite sapp_nil_r in H. unfold JSON_parse, JSON_stringify.
  rewrite H by (lia || reflexivity). reflexivity.
Qed.

(** ** From the seeded draft to the save *)

Lemma lookup_In (ps : list (string * JsVal)) k v :
  lookup k ps = Some v -> In (k, v) ps.
Proof.
  induction ps as [|[k0 v0] ps IH]; simpl; [discriminate|].
  destruct (k0 =? k) eqn:E.
  - apply String.eqb_eq in E. intros H. inversion H. subst. now left.
  - auto.
Qed.

Lemma In_assign e k v ps :
  In e (assign k v ps) -> e = (k, v) \/ In e ps.
Proof.
  induction ps as [|[k0 v0] ps IH]; simpl.
  - intros [H|[]]; auto.
  - destruct (k0 =? k) eqn:E; simpl.
    + apply String.eqb_eq in E. subst k0. intros [H|H]; auto.
    + intros [H|H]; auto. destruct (IH H); auto.
Qed.

Lemma In_assign_all e es : forall c,
  In e (assign_all es c) -> In e es \/ In e c.
Proof.
  unfold assign_all.
  induction es as [|[k v] es IH]; intros c H; simpl in *; auto.
  destruct (IH _ H) as [H'|H']; auto.
  destruct (In_assign _ _ _ _ H'); auto.
Qed.

Lemma canon_scalar v : json_scalar v = true -> canon v = v.
Proof. destruct v; try discriminate; reflexivity. Qed.

Lemma normalize_object_branch rows :
  (forall row, rows = [row] -> has_key row = true) ->
  normalizeNodeData (Some rows)
  = Normal (JSON_stringify (JObj (rows_object rows))).
Proof.
  intros H. destruct rows as [|row0 others]; [reflexivity|].
  unfold normalizeNodeData. rewrite truthy_key_has_key.
  destruct others as [|row1 others]; [|reflexivity].
  now rewrite (H row0 eq_refl).
Qed.

(** Open, Edit, Save: for a node that is not a single row without a key,
    when the rows of the node show what the document holds (every
    scalar-typed, keyed row carries a scalar, the one the object at the
    node's path has under that key), opening seeds a draft, and saving
    the draft as it was seeded commits the document as it was and leaves
    edit mode. *)
Theorem save_of_seeded_draft_changes_nothing :
  forall nodeData st store root cprops,
    JSON_parse (getJson store) = Normal root ->
    getAtPath root (node_path nodeData) = Normal (JObj cprops) ->
    (forall row, node_text nodeData = [row] -> has_key row = true) ->
    (forall row, In row (node_text nodeData) -> kept row = true ->
       json_scalar (value row) = true
       /\ lookup (fst (entry_of row)) cprops = Some (value row)) ->
    exists st1,
      resetOnOpen true nodeData st = Normal st1
      /\ handleSave nodeData (beginEdit st1) store
         = (st1, setContents (JSON_stringify root) true store).
Proof.
  intros nodeData st store root cprops Hr Hg Hone Hrows.
  set (rows := node_text nodeData) in *.
  set (tbl := rows_object rows).
  unfold resetOnOpen. fold rows.
  rewrite normalize_object_branch by assumption. cbn [bind].
  eexists. split; [reflexivity|].
  match goal with
  | |- handleSave _ (beginEdit ?s) _ = _ =>
      change s with (setIsEditing false (beginEdit s)) at 2
  end.
  assert (Hd : JSON_parse (JSON_stringify (JObj tbl)) = Normal (canon (JObj tbl)))
    by apply JSON_parse_stringify_canon.
  rewrite canon_object in Hd.
  eapply save_of_repeated_values; eauto.
  intros k v Hk. apply lookup_In in Hk.
  unfold build_object in Hk.
  change (fold_left _ ?es []) with (assign_all es []) in Hk.
  apply In_assign_all in Hk. destruct Hk as [Hk|[]].
  eapply Permutation_in in Hk; [|apply enum_order_perm].
  apply in_map_iff in Hk. destruct Hk as ([k0 v0] & He & Hin).
  unfold on_value in He. simpl in He. inversion He. subst k v. clear He.
  unfold defined_props in Hin. apply filter_In in Hin. destruct Hin as [Hin _].
  unfold tbl, rows_object in Hin.
  apply In_fold_add_row in Hin. destruct Hin as [Hin|[]].
  apply in_map_iff in Hin. destruct Hin as (row & He & Hrow).
  apply filter_In in Hrow. destruct Hrow as [Hrow Hk].
  destruct (Hrows row Hrow Hk) as [Hs Hl].
  rewrite He in Hl. simpl in Hl.
  assert (v0 = value row) by (unfold entry_of in He; now inversion He).
  subst v0. now rewrite canon_scalar.
Qed.

Lemma save_of_seeded_draft_changes_nothing_witness :
  exists st1,
    resetOnOpen true
      (Some {| text := [ {| key := Some "a"; value := JNum 1;
                            type := "number" |};
                         {| key := Some "b"; value := JNull;
                            type := "array" |} ];
               path := Some [SKey "n"] |})
      {| isEditing := false; draft := ""; draftError := None |}
    = Normal st1
    /\ handleSave
         (Some {| text := [ {| key := Some "a"; value := JNum 1;
                               type := "number" |};
                            {| key := Some "b"; value := JNull;
                               type := "array" |} ];
                  path := Some [SKey "n"] |})
         (beginEdit st1)
         {| contents := JSON_stringify
              (JObj [("n", JObj [("a", JNum 1); ("b", JArr [JNum 2] [])])]);
            hasChanges := false |}
       = (st1,
          setContents
            (JSON_stringify
               (JObj [("n", JObj [("a", JNum 1); ("b", JArr [JNum 2] [])])]))
            true
            {| contents := JSON_stringify
                 (JObj [("n", JObj [("a", JNum 1); ("b", JArr [JNum 2] [])])]);
               hasChanges := false |}).
Proof.
  apply (save_of_seeded_draft_changes_nothing
           (Some {| text := [ {| key := Some "a"; value := JNum 1;
                                 type := "number" |};
                              {| key := Some "b"; value := JNull;
                                 type := "array" |} ];
                    path := Some [SKey "n"] |})
           {| isEditing := false; draft := ""; draftError := None |}
           {| contents := JSON_stringify
                (JObj [("n", JObj [("a", JNum 1); ("b", JArr [JNum 2] [])])]);
              hasChanges := false |}
           (JObj [("n", JObj [("a", JNum 1); ("b", JArr [JNum 2] [])])])
           [("a", JNum 1); ("b", JArr [JNum 2] [])]).
  - vm_compute. reflexivity.
  - reflexivity.
  - intros row H. discriminate H.
  - intros row [H|[H|[]]] Hk; subst row; [split; reflexivity | discriminate Hk].
Defined.

(** ** C10 *)

Lemma In_lookup_some (ps : list (string * JsVal)) k v :
  In (k, v) ps -> lookup k ps <> None.
Proof.
  induction ps as [|[k0 v0] ps IH]; simpl; [tauto|].
  intros [H|H].
  - inversion H. subst. now rewrite String.eqb_refl.
  - destruct (k0 =? k); [discriminate | auto].
Qed.

(** A key that an object does not have, the object read back from its
    serialisation does not have either. *)
Lemma canon_object_no_new_key props k :
  lookup k props = None ->
  exists props', canon (JObj props) = JObj props' /\ lookup k props' = None.
Proof.
  intros H. rewrite canon_object. eexists. split; [reflexivity|].
  destruct (lookup k (build_object _)) as [v|] eqn:E; auto.
  exfalso. apply lookup_In in E. unfold build_object in E.
  change (fold_left _ ?es []) with (assign_all es []) in E.
  apply In_assign_all in E. destruct E as [E|[]].
  eapply Permutation_in in E; [|apply enum_order_perm].
  apply in_map_iff in E. destruct E as ([k0 v0] & He & Hin).
  unfold on_value in He. simpl in He. inversion He. subst k0.
  unfold defined_props in Hin. apply filter_In in Hin. destruct Hin as [Hin _].
  now apply In_lookup_some in Hin.
Qed.

(** C10, as the code has it: key presence is truthiness.  A single row
    whose key is the empty string is treated as a single row without a
    key, and gives the text of its value when the value is a scalar: a
    string as it is, a number in decimal, a boolean and [null] by their
    names.  With two rows or more, the rows whose key is the empty string
    do not reach the object that is serialised.  That object never has
    the empty string as a key, and neither has the object read back from
    the text. *)
Theorem C10_empty_key_counts_as_absent :
  (forall v t,
      normalizeNodeData (Some [ {| key := Some ""; value := v; type := t |} ])
      = normalizeNodeData (Some [ {| key := None; value := v; type := t |} ])
      /\ normalizeNodeData
           (Some [ {| key := Some ""; value := v; type := t |} ])
         = to_text v)
  /\ (forall s t,
        normalizeNodeData
          (Some [ {| key := Some ""; value := JStr s; type := t |} ])
        = Normal s)
  /\ (forall z t,
        safe_integer z = true ->
        normalizeNodeData
          (Some [ {| key := Some ""; value := JNum z; type := t |} ])
        = Normal (Z_to_string z))
  /\ (forall t,
        normalizeNodeData
          (Some [ {| key := Some ""; value := JNum (-12); type := t |} ])
        = Normal "-12"
        /\ normalizeNodeData
             (Some [ {| key := Some ""; value := JBool true; type := t |} ])
           = Normal "true"
        /\ normalizeNodeData
             (Some [ {| key := Some ""; value := JBool false; type := t |} ])
           = Normal "false"
        /\ normalizeNodeData
             (Some [ {| key := Some ""; value := JNull; type := t |} ])
           = Normal "null"
        /\ normalizeNodeData
             (Some [ {| key := Some "";
                        value := JArr [JNum 1; JNull; JArr [JNum 2; JNum 3] []] [];
                        type := t |} ])
           = Normal "1,,2,3"
        /\ normalizeNodeData
             (Some [ {| key := Some ""; value := JObj [("x", JNum 1)];
                        type := t |} ])
           = Normal "[object Object]")
  /\ (forall rows,
        2 <= List.length rows ->
        normalizeNodeData (Some rows)
        = Normal (JSON_stringify
                    (JObj (rows_object
                             (filter (fun r => negb (empty_key r)) rows)))))
  /\ (forall rows, lookup "" (rows_object rows) = None)
  /\ (forall rows,
        (forall row, rows = [row] -> has_key row = true) ->
        exists t props,
          normalizeNodeData (Some rows) = Normal t
          /\ JSON_parse t = Normal (JObj props)
          /\ lookup "" props = None).
Proof.
  split; [split; reflexivity|]. split; [reflexivity|]. split; [reflexivity|].
  split; [intros t; repeat apply conj; reflexivity|].
  split; [|split].
  - intros rows Hlen.
    destruct rows as [|row0 [|row1 others]]; simpl in Hlen; try lia.
    unfold normalizeNodeData, rows_object.
    now rewrite <- fold_add_row_drop_empty.
  - intros rows. unfold rows_object. now rewrite lookup_empty_fold.
  - intros rows H. rewrite normalize_object_branch by assumption.
    destruct (canon_object_no_new_key (rows_object rows) "")
      as (props & Hc & Hl);
      [unfold rows_object; now rewrite lookup_empty_fold|].
    exists (JSON_stringify (JObj (rows_object rows))), props.
    split; [reflexivity|]. split; [|exact Hl].
    rewrite JSON_parse_stringify_canon. now f_equal.
Qed.

(** C10 as stated fails on a single row whose key is the empty string
    and whose value is an object with a property [toString] of its own:
    the conversion to text throws, and no text is returned. *)
Lemma C10_single_row_text_can_throw :
  ~ (forall v t,
       exists s,
         normalizeNodeData
           (Some [ {| key := Some ""; value := v; type := t |} ])
         = Normal s).
Proof.
  intros H.
  destruct (H (JObj [("toString", JNum 1)]) "object") as [s Hs].
  discriminate Hs.
Qed.

Lemma C10_witness :
  normalizeNodeData
    (Some [ {| key := Some ""; value := JNum 42; type := "number" |} ])
  = Normal (Z_to_string 42)
  /\ normalizeNodeData
       (Some [ {| key := Some ""; value := JNum 1; type := "number" |};
               {| key := Some "k"; value := JNum 2; type := "number" |} ])
     = Normal ("{" ++ newline
               ++ "  " ++ dquote ++ "k" ++ dquote ++ ": 2" ++ newline
               ++ "}")
  /\ exists t props,
       normalizeNodeData
         (Some [ {| key := Some ""; value := JNum 1; type := "number" |};
                 {| key := Some "k"; value := JNum 2; type := "number" |} ])
       = Normal t
       /\ JSON_parse t = Normal (JObj props)
       /\ lookup "" props = None.
Proof.
  split; [|split].
  - apply (proj1 (proj2 (proj2 C10_empty_key_counts_as_absent)) 42%Z "number").
    reflexivity.
  - apply (proj1 (proj2 (proj2 (proj2 (proj2 C10_empty_key_counts_as_absent))))
             [ {| key := Some ""; value := JNum 1; type := "number" |};
               {| key := Some "k"; value := JNum 2; type := "number" |} ]).
    simpl. lia.
  - apply (proj2 (proj2 (proj2 (proj2 (proj2 (proj2
                    C10_empty_key_counts_as_absent)))))
             [ {| key := Some ""; value := JNum 1; type := "number" |};
               {| key := Some "k"; value := JNum 2; type := "number" |} ]).
    intros row H. discriminate H.
Defined.

(** ** Writes on arrays *)

Lemma array_index_N_to_string n :
  (n < 4294967295)%N -> array_index (N_to_string n) = Some n.
Proof.
  intros H. unfold array_index. unfold N_to_string at 1.
  rewrite NilZero.usu by apply N_to_uint_nonnil.
  rewrite DecimalN.Unsigned.of_to, String.eqb_refl.
  apply N.ltb_lt in H. now rewrite H.
Qed.

Lemma store_elem_past_end : forall i v l,
  List.length l <= i ->
  store_elem i v l = (l ++ repeat JUndef (i - List.length l) ++ [v])%list.
Proof.
  induction i as [|i IH]; intros v [|x l] H; simpl in *; try lia; auto.
  - rewrite (IH v []) by (simpl; lia). simpl. now rewrite Nat.sub_0_r.
  - now rewrite IH by lia.
Qed.

Lemma map_canon_repeat n : map canon (repeat JUndef n) = repeat JNull n.
Proof. induction n; simpl; congruence. Qed.

(** A write at an index past the end of an array fills the gap with
    holes, and the text committed for the array shows them as [null]. *)
Theorem write_past_end_leaves_holes :
  forall elems extra n v,
    (n < 4294967295)%N ->
    List.length elems <= N.to_nat n ->
    setAtPath (JArr elems extra) [SIdx n] v
    = Normal
        (JArr (elems ++ repeat JUndef (N.to_nat n - List.length elems) ++ [v])
           extra,
         JArr (elems ++ repeat JUndef (N.to_nat n - List.length elems) ++ [v])
           extra)
    /\ JSON_parse
         (JSON_stringify
            (JArr (elems ++ repeat JUndef (N.to_nat n - List.length elems)
                     ++ [v]) extra))
       = Normal
           (JArr (map canon elems
                    ++ repeat JNull (N.to_nat n - List.length elems)
                    ++ [canon v]) []).
Proof.
  intros elems extra n v Hn Hlen. split.
  - cbn [setAtPath set_from prop_key set_prop].
    rewrite array_index_N_to_string by assumption.
    now rewrite store_elem_past_end.
  - rewrite JSON_parse_stringify_canon, canon_array.
    now rewrite !map_app, map_canon_repeat.
Qed.

Lemma write_past_end_leaves_holes_witness :
  setAtPath (JArr [JNum 1] []) [SIdx 3] (JNum 9)
  = Normal
      (JArr ([JNum 1] ++ repeat JUndef (N.to_nat 3 - List.length [JNum 1])
               ++ [JNum 9]) [],
       JArr ([JNum 1] ++ repeat JUndef (N.to_nat 3 - List.length [JNum 1])
               ++ [JNum 9]) [])
  /\ JSON_parse
       (JSON_stringify
          (JArr ([JNum 1] ++ repeat JUndef (N.to_nat 3 - List.length [JNum 1])
                   ++ [JNum 9]) []))
     = Normal
         (JArr (map canon [JNum 1]
                  ++ repeat JNull (N.to_nat 3 - List.length [JNum 1])
                  ++ [canon (JNum 9)]) []).
Proof.
  apply (write_past_end_leaves_holes [JNum 1] [] 3%N (JNum 9));
    [reflexivity | simpl; lia].
Defined.

(** A write on an array under a name that is not an array index (and not
    one of the built-in names) is read back from the array in memory, but
    the text committed for the array does not have it. *)
Theorem named_write_on_array_is_not_committed :
  forall elems extra k v,
    array_index k = None ->
    k <> "length" -> k <> "__proto__" ->
    exists A,
      setAtPath (JArr elems extra) [SKey k] v = Normal (A, A)
      /\ getAtPath A [SKey k] = Normal v
      /\ JSON_parse (JSON_stringify A)
         = JSON_parse (JSON_stringify (JArr elems extra)).
Proof.
  intros elems extra k v Hk _ Hp.
  exists (JArr elems (put k v extra)). split; [|split].
  - cbn [setAtPath set_from prop_key set_prop]. now rewrite Hk.
  - cbn [getAtPath is_nullish prop_key get_prop]. rewrite Hk.
    cbn [bind]. now rewrite lookup_put_same by now left.
  - now rewrite !JSON_parse_stringify_canon, !canon_array.
Qed.

Lemma named_write_on_array_is_not_committed_witness :
  exists A,
    setAtPath (JArr [JNum 1] []) [SKey "name"] (JNum 2) = Normal (A, A)
    /\ getAtPath A [SKey "name"] = Normal (JNum 2)
    /\ JSON_parse (JSON_stringify A)
       = JSON_parse (JSON_stringify (JArr [JNum 1] [])).
Proof.
  apply (named_write_on_array_is_not_committed [JNum 1] [] "name" (JNum 2));
    [reflexivity | discriminate | discriminate].
Defined.
